(** * Industrial RAG system: chunking, index build and reload, retrieval, synthesis

    A shallow embedding of [industrial_rag_system.py] (class
    [IndustrialRAGSystem]) together with the properties its specification
    states about it.

    Conventions of the embedding.
    - A Python [str] that is sliced by index (the text handed to
      [chunk_text]) is a [list ascii]; the characters are read as code
      points 0..255.  Strings that are only compared, stored or looked up
      (document names, metadata keys and values, messages) are [string].
    - Python integers are [Z]; indices may be negative and follow Python's
      slice rules.
    - A Python [float] that the code computes with (raw distances,
      similarity scores) is a [PyFloat.float]: a finite value, kept as an
      exact rational (rounding is not modelled), or one of inf, -inf and
      nan.  Embeddings are only handed from the provider to the store and
      are lists of rationals.
    - [self.documents], chroma metadata dictionaries and the persistent
      store are finite maps ([gmap]).
    - Methods that touch [self], the store or a provider are functions in
      a state-and-exception monad [M]. *)

From Stdlib Require Import ZArith QArith Lia Lqa Ascii String.
From stdpp Require Import gmap strings list fin_maps pretty.

Local Open Scope Z_scope.

(** ** Python string primitives used by the chunker *)

Module PyStr.

Definition pystr := list ascii.

  (** [str.isspace] on one character, for the code points below 256. *)
Definition isspace (c : ascii) : bool :=
    let n := Z.of_nat (nat_of_ascii c) in
    ((9 <=? n) && (n <=? 13)) || ((28 <=? n) && (n <=? 32))
    || (n =? 133) || (n =? 160).

Fixpoint lstrip (s : pystr) : pystr :=
    match s with
    | c :: s' => if isspace c then lstrip s' else s
    | [] => []
    end.

Definition rstrip (s : pystr) : pystr := rev (lstrip (rev s)).

  (** [s.strip()] *)
Definition strip (s : pystr) : pystr := rstrip (lstrip s).

  (** Truth value of a string: [if s:] *)
Definition truthy (s : pystr) : bool :=
    match s with [] => false | _ :: _ => true end.

  (** Normalisation of one slice bound against a length, as
      [PySlice_AdjustIndices] does for step 1: a negative bound counts
      from the end, then the bound is clipped to [0, len]. *)
Definition adjust_index (len i : Z) : Z :=
    if i <? 0 then Z.max 0 (i + len) else Z.min i len.

  (** [s[lo:hi]] *)
Definition slice (s : pystr) (lo hi : Z) : pystr :=
    let len := Z.of_nat (length s) in
    let lo' := adjust_index len lo in
    let hi' := adjust_index len hi in
    take (Z.to_nat (hi' - lo')) (drop (Z.to_nat lo') s).

  (** [s[:hi]] *)
Definition slice_to (s : pystr) (hi : Z) : pystr := slice s 0 hi.

  (** [s.rfind(c)] for a one-character needle: the highest index holding
      [c], or [-1]. *)
Fixpoint rfind (c : ascii) (s : pystr) : Z :=
    match s with
    | [] => -1
    | x :: s' =>
        let r := rfind c s' in
        if 0 <=? r then r + 1
        else if Ascii.eqb x c then 0 else -1
    end.

End PyStr.

(** ** Chunker: [chunk_text] *)

Module Chunker.
Import PyStr.

  (** The loop variables of [chunk_text]. *)
Record loop_state := LoopState { start : Z; chunks : list pystr }.

  (** [max(chunk_text.rfind('.'), chunk_text.rfind('?'), chunk_text.rfind('!'))] *)
Definition last_period (chunk : pystr) : Z :=
    Z.max (Z.max (rfind "."%char chunk) (rfind "?"%char chunk))
          (rfind "!"%char chunk).

  (** The sentence-boundary adjustment: the chunk and [end] after the
      [if end < len(text)] block.  [last_period > chunk_size * 0.5] is a
      comparison of an integer with a half-integer, written here as
      [chunk_size < 2 * last_period]. *)
Definition cut (text : pystr) (chunk_size : Z) (start : Z) : pystr * Z :=
    let end_ := start + chunk_size in
    let chunk_text := slice text start end_ in
    if end_ <? Z.of_nat (length text) then
      let lp := last_period chunk_text in
      if chunk_size <? 2 * lp
      then (slice_to chunk_text (lp + 1), start + lp + 1)
      else (chunk_text, end_)
    else (chunk_text, end_).

  (** [if chunk_text.strip(): chunks.append(chunk_text.strip())] *)
Definition emit (chunk_text : pystr) (chunks : list pystr) : list pystr :=
    if truthy (strip chunk_text) then chunks ++ [strip chunk_text] else chunks.

  (** One iteration of the [while] body. *)
Definition chunk_step (text : pystr) (chunk_size overlap : Z)
      (st : loop_state) : loop_state :=
    let '(chunk_text, end_) := cut text chunk_size (start st) in
    {| start := end_ - overlap; chunks := emit chunk_text (chunks st) |}.

  (** The loop guard [start < len(text)]. *)
Definition running (text : pystr) (st : loop_state) : bool :=
    start st <? Z.of_nat (length text).

  (** The [while] loop, bounded by [fuel] iterations: [None] when the
      guard still holds after [fuel] iterations. *)
Fixpoint chunk_loop (fuel : nat) (text : pystr) (chunk_size overlap : Z)
      (st : loop_state) : option (list pystr) :=
    if running text st then
      match fuel with
      | O => None
      | S fuel' =>
          chunk_loop fuel' text chunk_size overlap
                     (chunk_step text chunk_size overlap st)
      end
    else Some (chunks st).

Definition chunk_text (fuel : nat) (text : pystr) (chunk_size overlap : Z)
      : option (list pystr) :=
    chunk_loop fuel text chunk_size overlap {| start := 0; chunks := [] |}.

  (** The state after [n] iterations of the body, guard included: the
      loop stops changing its variables once the guard fails. *)
Fixpoint iterate (n : nat) (text : pystr) (chunk_size overlap : Z)
      (st : loop_state) : loop_state :=
    match n with
    | O => st
    | S n' =>
        if running text st
        then iterate n' text chunk_size overlap
                     (chunk_step text chunk_size overlap st)
        else st
    end.

End Chunker.

(** Two texts to run the chunker on. *)
Definition looping_text : PyStr.pystr :=
  list_ascii_of_string "aaaaaa.aaaaaaaaaaaaa".

Definition sample_text : PyStr.pystr :=
  list_ascii_of_string "Hello world. This is a test! And more text here".

(** ** Python floats *)

Module PyFloat.

Inductive float := Finite (q : Q) | PosInf | NegInf | NaN.

  (** [a < b]: false as soon as one side is nan. *)
Definition lt (a b : float) : bool :=
    match a, b with
    | Finite x, Finite y => if Qlt_le_dec x y then true else false
    | Finite _, PosInf => true
    | NegInf, Finite _ => true
    | NegInf, PosInf => true
    | _, _ => false
    end.

  (** [a <= b] *)
Definition le (a b : float) : bool :=
    match a, b with
    | Finite x, Finite y => if Qlt_le_dec y x then false else true
    | Finite _, PosInf => true
    | NegInf, Finite _ => true
    | NegInf, PosInf => true
    | PosInf, PosInf => true
    | NegInf, NegInf => true
    | _, _ => false
    end.

  (** [a == b] *)
Definition eqb (a b : float) : bool :=
    match a, b with
    | Finite x, Finite y => Qeq_bool x y
    | PosInf, PosInf => true
    | NegInf, NegInf => true
    | _, _ => false
    end.

  (** [a - b] *)
Definition sub (a b : float) : float :=
    match a, b with
    | NaN, _ | _, NaN => NaN
    | Finite x, Finite y => Finite (x - y)
    | Finite _, PosInf => NegInf
    | Finite _, NegInf => PosInf
    | PosInf, PosInf => NaN
    | PosInf, _ => PosInf
    | NegInf, NegInf => NaN
    | NegInf, _ => NegInf
    end.

  (** [a / b] for a divisor other than zero.  On a zero divisor Python
      raises [ZeroDivisionError]; the code divides by [max_dist] only
      under the test [max_dist > 0], so that case is never reached, and
      this function answers nan there. *)
Definition div (a b : float) : float :=
    match a, b with
    | NaN, _ | _, NaN => NaN
    | Finite x, Finite y => if Qeq_bool y 0 then NaN else Finite (x / y)
    | Finite _, (PosInf | NegInf) => Finite 0
    | (PosInf | NegInf), (PosInf | NegInf) => NaN
    | PosInf, Finite y =>
        if Qlt_le_dec 0 y then PosInf
        else if Qeq_bool y 0 then NaN else NegInf
    | NegInf, Finite y =>
        if Qlt_le_dec 0 y then NegInf
        else if Qeq_bool y 0 then NaN else PosInf
    end.

End PyFloat.

(** ** The vector store, the providers and the exceptions *)

Module Store.

  (** A chroma metadata value, as [build_index] writes them: strings and
      the integer [chunk_index]. *)
Inductive MetaVal := MStr (s : string) | MInt (z : Z).

Global Instance MetaVal_eq_dec : EqDecision MetaVal.
Proof. solve_decision. Defined.

Global Instance MetaVal_countable : Countable MetaVal.
Proof.
    refine (inj_countable'
      (λ v, match v with MStr s => inl s | MInt z => inr z end)
      (λ x, match x with inl s => MStr s | inr z => MInt z end) _).
    by intros [].
Defined.

  (** Python truth value of a metadata value. *)
Definition meta_truthy (v : MetaVal) : bool :=
    match v with
    | MStr s => negb (String.eqb s "")
    | MInt z => negb (z =? 0)
    end.

  (** [str(v)] *)
Definition meta_str (v : MetaVal) : string :=
    match v with MStr s => s | MInt z => pretty z end.

Definition Embedding := list Q.

  (** One persisted entry.  An entry added without metadata reads back as
      [None]. *)
Record Entry := mkEntry {
    entry_id : string;
    entry_embedding : Embedding;
    entry_document : string;
    entry_metadata : option (gmap string MetaVal)
  }.

  (** The [where] clause built by [search]: one equality on a field. *)
Definition Where := (string * MetaVal)%type.

Definition matches (w : option Where) (m : option (gmap string MetaVal)) : bool :=
    match w with
    | None => true
    | Some (k, v) =>
        match m with
        | Some m => bool_decide (m !! k = Some v)
        | None => false
        end
    end.

  (** [results['documents'][0]], [results['distances'][0]] and
      [results['metadatas'][0]] of a query with one query embedding. *)
Record QueryResult := mkQueryResult {
    res_documents : list string;
    res_distances : list PyFloat.float;
    res_metadatas : list (option (gmap string MetaVal))
  }.

End Store.

Import Store.

Inductive Exn :=
| ValueError (msg : string)
| IndexError
| AttributeError
| PdfError (msg : string)        (* raised by pdfplumber *)
| ProviderError (msg : string)   (* raised by the OpenAI client *)
| StoreError (msg : string).     (* raised by chromadb *)

Definition exn_str (e : Exn) : string :=
  match e with
  | ValueError m | PdfError m | ProviderError m | StoreError m => m
  | IndexError => "list index out of range"
  | AttributeError => "'NoneType' object has no attribute 'get'"
  end.

(** Requests sent to the embedding and the generation provider. *)
Inductive Request :=
| EmbeddingRequest (input : list string)
| ChatRequest (system_message user_message : string).

(** The external collaborators: what the PDF library, the two provider
    endpoints and the store answer, and the library functions the code
    calls on values.  A failing call answers with the message of the
    exception its library raises. *)
Record Env := mkEnv {
  (** [pdfplumber.open(path)] and [page.extract_text()] of every page *)
  pdf_pages : string → string + list (option string);
  (** [Path(path).stem] *)
  path_stem : string → string;
  (** [client.embeddings.create(input=batch)]: the embeddings of
      [response.data] *)
  embeddings_create : list string → string + list Embedding;
  (** [client.chat.completions.create(messages=...)]: the message
      contents of [response.choices] *)
  chat_create : string → string → string + list string;
  (** the store rejecting [create_collection(name)] *)
  create_fault : string → option string;
  (** the store rejecting a batch handed to [collection.add] *)
  add_fault : list string → list Embedding → list string →
              list (gmap string MetaVal) → option string;
  (** [collection.query(query_embeddings=[e], n_results=k, where=w)] on
      the entries of the collection *)
  store_query : list Entry → Embedding → Z → option Where →
                string + QueryResult;
  (** [f"{score:.2f}"] *)
  format_2f : PyFloat.float → string
}.

(** ** State and exceptions *)

Record DocInfo := mkDocInfo {
  doc_name : MetaVal;
  doc_type : MetaVal;
  doc_path : MetaVal;
  doc_chunks : Z
}.

(** The object [self], the persistent store behind [self.chroma_client]
    and the requests issued so far. *)
Record State := mkState {
  collection : option string;             (* handle: the collection's name *)
  documents : gmap MetaVal DocInfo;
  chroma : gmap string (list Entry);
  requests : list Request
}.

Inductive Result (A : Type) :=
| Ok (a : A)
| Raise (e : Exn)
| Diverge.
Arguments Ok {A} a.
Arguments Raise {A} e.
Arguments Diverge {A}.

Definition M (A : Type) : Type := State → Result A * State.

Global Instance M_ret : MRet M := λ A a st, (Ok a, st).

Global Instance M_bind : MBind M := λ A B k m st,
  match m st with
  | (Ok a, st') => k a st'
  | (Raise e, st') => (Raise e, st')
  | (Diverge, st') => (Diverge, st')
  end.

Definition raise {A} (e : Exn) : M A := λ st, (Raise e, st).

Definition diverge {A} : M A := λ st, (Diverge, st).

Definition get_state : M State := λ st, (Ok st, st).

Definition modify (f : State → State) : M unit := λ st, (Ok tt, f st).

(** [try: m  except Exception as e: handler(e)] *)
Definition try_except {A} (m : M A) (handler : Exn → M A) : M A := λ st,
  match m st with
  | (Raise e, st') => handler e st'
  | r => r
  end.

(** The outcome of a call into a library whose exceptions are [exn]. *)
Definition lift {A} (exn : string → Exn) (r : string + A) : M A :=
  match r with inl msg => raise (exn msg) | inr a => mret a end.

(** [for x in l: body(x)] *)
Fixpoint for_each {A} (l : list A) (body : A → M unit) : M unit :=
  match l with
  | [] => mret tt
  | x :: l' => body x ;; for_each l' body
  end.

Definition set_collection (c : option string) (st : State) : State :=
  mkState c (documents st) (chroma st) (requests st).

Definition set_documents (d : gmap MetaVal DocInfo) (st : State) : State :=
  mkState (collection st) d (chroma st) (requests st).

Definition set_chroma (c : gmap string (list Entry)) (st : State) : State :=
  mkState (collection st) (documents st) c (requests st).

Definition log_request (r : Request) (st : State) : State :=
  mkState (collection st) (documents st) (chroma st) (requests st ++ [r]).

(** The instance after the requests [rs] have been sent, in order. *)
Definition log_requests (rs : list Request) (st : State) : State :=
  mkState (collection st) (documents st) (chroma st) (requests st ++ rs).

(** [l[0]] *)
Definition index0 {A} (l : list A) : M A :=
  match l with
  | x :: _ => mret x
  | [] => raise IndexError
  end.

Definition nl : string := String (ascii_of_nat 10) EmptyString.

(** [sep.join(parts)] *)
Fixpoint join (sep : string) (parts : list string) : string :=
  match parts with
  | [] => ""
  | [p] => p
  | p :: ps => p +:+ sep +:+ join sep ps
  end.

Import PyStr Chunker.

(** Unfolds the operations of [M]. *)
Ltac unfold_monad :=
  unfold mbind, M_bind, mret, M_ret, raise, diverge, get_state, modify,
    try_except, lift, index0 in *.

(** ** The class [IndustrialRAGSystem] *)

Module Rag.

Definition collection_name : string := "aer_directives".

  (** One element of the [documents] argument of [build_index]. *)
Record DocSpec := mkDocSpec {
    spec_path : string;
    spec_name : string;
    spec_type : string
  }.

  (** The dict returned by [generate_response]. *)
Record Source := mkSource {
    src_chunk : string;
    src_relevance : PyFloat.float;
    src_document : option MetaVal;
    src_type : option MetaVal
  }.

Record Response := mkResponse {
    answer : string;
    sources : list Source;
    context : string
  }.

Definition system_message : string :=
"You are an expert assistant for Alberta Energy Regulator (AER) directives and industrial compliance.

Your role:
- Answer questions based ONLY on the provided AER directive excerpts
- Provide accurate, compliance-focused information
- Include specific directive references when relevant
- If information is not in the context, clearly state this
- Be professional and precise

Guidelines:
- Cite specific directives when answering
- Include relevant section numbers if mentioned in context
- Keep answers clear and actionable
- Do not make up requirements not in the context".

Definition user_message (context query : string) : string :=
    "Context from AER Directives:" +:+ nl +:+ nl +:+ context +:+ nl +:+ nl
    +:+ "Question: " +:+ query +:+ nl +:+ nl
    +:+ "Provide a clear, professional answer based on the context above. Include relevant directive citations.".

  (** *** Pure parts *)

  (** [text += page_text + "\n\n"] over the pages with a non-empty text. *)
Fixpoint concat_pages (pages : list (option string)) : string :=
    match pages with
    | [] => ""
    | Some t :: ps =>
        if String.eqb t "" then concat_pages ps
        else t +:+ nl +:+ nl +:+ concat_pages ps
    | None :: ps => concat_pages ps
    end.

  (** The batches [texts[i:i + 100]] for [i] in [range(0, len(texts), 100)]. *)
Fixpoint batches (fuel : nat) (texts : list string) : list (list string) :=
    match fuel, texts with
    | _, [] => []
    | O, _ => []
    | S fuel', _ => take 100 texts :: batches fuel' (drop 100 texts)
    end.

  (** The metadata [build_index] attaches to chunk [i] of a document. *)
Definition chunk_metadata (doc_id : string) (doc : DocSpec) (i : Z)
      : gmap string MetaVal :=
    <["document_id" := MStr doc_id]>
    (<["document_name" := MStr (spec_name doc)]>
    (<["document_type" := MStr (spec_type doc)]>
    (<["chunk_index" := MInt i]>
    (<["source_file" := MStr (spec_path doc)]> ∅)))).

Fixpoint make_entries (ids : list string) (embeddings : list Embedding)
      (docs : list string) (metas : list (gmap string MetaVal)) : list Entry :=
    match ids, embeddings, docs, metas with
    | i :: ids', e :: embeddings', d :: docs', m :: metas' =>
        mkEntry i e d (Some m) :: make_entries ids' embeddings' docs' metas'
    | _, _, _, _ => []
    end.

  (** [max(distances)]: the first largest element. *)
Fixpoint max_from (best : PyFloat.float) (l : list PyFloat.float)
      : PyFloat.float :=
    match l with
    | [] => best
    | d :: l' => max_from (if PyFloat.lt best d then d else best) l'
    end.

  (** [max(distances) if distances else 1.0] *)
Definition max_dist (distances : list PyFloat.float) : PyFloat.float :=
    match distances with
    | [] => PyFloat.Finite 1
    | d :: l => max_from d l
    end.

  (** [[1 - (d / max_dist) if max_dist > 0 else 1.0 for d in distances]] *)
Definition similarities (distances : list PyFloat.float)
      : list PyFloat.float :=
    let m := max_dist distances in
    (λ d, if PyFloat.lt (PyFloat.Finite 0) m
          then PyFloat.sub (PyFloat.Finite 1) (PyFloat.div d m)
          else PyFloat.Finite 1) <$> distances.

  (** [list(zip(chunks, similarities, metadatas))] *)
Fixpoint zip3 {A B C} (l1 : list A) (l2 : list B) (l3 : list C)
      : list (A * B * C) :=
    match l1, l2, l3 with
    | a :: l1', b :: l2', c :: l3' => (a, b, c) :: zip3 l1' l2' l3'
    | _, _, _ => []
    end.

  (** The [where] argument [search] hands to the store. *)
Definition where_filter (document_filter : option string) : option Where :=
    match document_filter with
    | Some f =>
        if negb (String.eqb f "") && negb (String.eqb f "All Documents")
        then Some ("document_name", MStr f)
        else None
    | None => None
    end.

  (** [meta.get(key, default)] on a metadata that may be [None]. *)
Definition meta_get (meta : option (gmap string MetaVal)) (key : string)
      : M (option MetaVal) :=
    match meta with
    | Some m => mret (m !! key)
    | None => raise AttributeError
    end.

Section Methods.
Variable env : Env.

    (** *** Store operations *)

Definition delete_collection (name : string) : M unit :=
      st ← get_state;
      match chroma st !! name with
      | Some _ => modify (set_chroma (delete name (chroma st)))
      | None => raise (StoreError "Collection does not exist")
      end.

Definition create_collection (name : string) : M string :=
      st ← get_state;
      match create_fault env name with
      | Some msg => raise (StoreError msg)
      | None =>
          match chroma st !! name with
          | Some _ => raise (StoreError "Collection already exists")
          | None => modify (set_chroma (<[name := []]> (chroma st)));; mret name
          end
      end.

Definition get_collection (name : string) : M string :=
      st ← get_state;
      match chroma st !! name with
      | Some _ => mret name
      | None => raise (StoreError "Collection does not exist")
      end.

Definition collection_entries (handle : string) : M (list Entry) :=
      st ← get_state;
      match chroma st !! handle with
      | Some entries => mret entries
      | None => raise (StoreError "Collection does not exist")
      end.

Definition collection_add (handle : string) (embeddings : list Embedding)
        (docs : list string) (metas : list (gmap string MetaVal))
        (ids : list string) : M unit :=
      entries ← collection_entries handle;
      match add_fault env ids embeddings docs metas with
      | Some msg => raise (StoreError msg)
      | None =>
          modify (λ st, set_chroma
            (<[handle := entries ++ make_entries ids embeddings docs metas]>
               (chroma st)) st)
      end.

    (** [collection.get(limit=limit, include=['metadatas'])['metadatas']] *)
Definition collection_get_metadatas (handle : string) (limit : Z)
        : M (list (option (gmap string MetaVal))) :=
      entries ← collection_entries handle;
      mret (entry_metadata <$> take (Z.to_nat limit) entries).

Definition collection_query (handle : string) (e : Embedding) (k : Z)
        (w : option Where) : M QueryResult :=
      entries ← collection_entries handle;
      lift StoreError (store_query env entries e k w).

    (** *** [extract_text_from_pdf] *)
Definition extract_text_from_pdf (pdf_path : string) : M string :=
      pages ← lift PdfError (pdf_pages env pdf_path);
      mret (concat_pages pages).

    (** *** [create_embeddings] *)
Fixpoint embed_batches (bs : list (list string)) : M (list Embedding) :=
      match bs with
      | [] => mret []
      | batch :: bs' =>
          modify (log_request (EmbeddingRequest batch));;
          batch_embeddings ← lift ProviderError (embeddings_create env batch);
          rest ← embed_batches bs';
          mret (batch_embeddings ++ rest)
      end.

Definition create_embeddings (texts : list string) : M (list Embedding) :=
      embed_batches (batches (length texts) texts).

    (** *** [add_document] *)
Definition add_document (pdf_path document_name document_type : string)
        : M (list string * string) :=
      text ← extract_text_from_pdf pdf_path;
      let chars := list_ascii_of_string text in
      match chunk_text (length chars) chars 500 100 with
      | None => diverge
      | Some cs =>
          let chunks := string_of_list_ascii <$> cs in
          let doc_id := path_stem env pdf_path in
          modify (λ st, set_documents
            (<[MStr doc_id :=
                 mkDocInfo (MStr document_name) (MStr document_type)
                           (MStr pdf_path) (Z.of_nat (length chunks))]>
               (documents st)) st);;
          mret (chunks, doc_id)
      end.

    (** *** [build_index] *)

    (** The loop over [documents] that fills [all_chunks] and
        [all_metadatas]. *)
Fixpoint collect (docs : list DocSpec)
        (all_chunks : list string) (all_metadatas : list (gmap string MetaVal))
        : M (list string * list (gmap string MetaVal)) :=
      match docs with
      | [] => mret (all_chunks, all_metadatas)
      | doc :: docs' =>
          '(chunks, doc_id) ← add_document (spec_path doc) (spec_name doc)
                                            (spec_type doc);
          collect docs'
            (all_chunks ++ chunks)
            (all_metadatas ++
               imap (λ i _, chunk_metadata doc_id doc (Z.of_nat i)) chunks)
      end.

Definition build_index (docs : list DocSpec) : M unit :=
      '(all_chunks, all_metadatas) ← collect docs [] [];
      embeddings ← create_embeddings all_chunks;
      try_except (delete_collection collection_name) (λ _, mret tt);;
      handle ← create_collection collection_name;
      modify (set_collection (Some handle));;
      let ids := (λ i : nat, "chunk_" +:+ pretty i) <$> seq 0 (length all_chunks) in
      collection_add handle embeddings all_chunks all_metadatas ids;;
      (* the closing report prints [len(embeddings[0])] *)
      _ ← index0 embeddings;
      mret tt.

    (** *** [load_index] *)

    (** Body of the first loop over [sample['metadatas']]. *)
Definition register_doc (meta : option (gmap string MetaVal)) : M unit :=
      doc_id ← meta_get meta "document_id";
      st ← get_state;
      match doc_id with
      | Some id =>
          if meta_truthy id && bool_decide (documents st !! id = None) then
            name ← meta_get meta "document_name";
            type ← meta_get meta "document_type";
            path ← meta_get meta "source_file";
            modify (set_documents
              (<[id := mkDocInfo (default (MStr "Unknown") name)
                                 (default (MStr "Unknown") type)
                                 (default (MStr "") path) 0]>
                 (documents st)))
          else mret tt
      | None => mret tt
      end.

    (** Body of the second loop. *)
Definition count_chunk (meta : option (gmap string MetaVal)) : M unit :=
      doc_id ← meta_get meta "document_id";
      st ← get_state;
      match doc_id with
      | Some id =>
          match documents st !! id with
          | Some info =>
              modify (set_documents
                (<[id := mkDocInfo (doc_name info) (doc_type info)
                                   (doc_path info) (doc_chunks info + 1)]>
                   (documents st)))
          | None => mret tt
          end
      | None => mret tt
      end.

Definition load_index : M unit :=
      try_except
        (handle ← get_collection collection_name;
         modify (set_collection (Some handle));;
         (* count = self.collection.count() *)
         _ ← collection_entries handle;
         metadatas ← collection_get_metadatas handle 1000;
         match metadatas with
         | [] => mret tt
         | _ :: _ =>
             for_each metadatas register_doc;;
             for_each metadatas count_chunk
         end)
        (λ e, raise (ValueError ("Failed to load collection: " +:+ exn_str e))).

    (** *** [search] *)
Definition search (query : string) (top_k : Z)
        (document_filter : option string)
        : M (list (string * PyFloat.float * option (gmap string MetaVal))) :=
      st ← get_state;
      match collection st with
      | None => raise (ValueError "Collection not loaded")
      | Some handle =>
          modify (log_request (EmbeddingRequest [query]));;
          data ← lift ProviderError (embeddings_create env [query]);
          query_embedding ← index0 data;
          results ← collection_query handle query_embedding top_k
                      (where_filter document_filter);
          let chunks := res_documents results in
          let distances := res_distances results in
          let metadatas := res_metadatas results in
          mret (zip3 chunks (similarities distances) metadatas)
      end.

    (** *** [generate_response] *)

    (** The labelled blocks of the context, numbered from [i]. *)
Fixpoint context_parts (i : Z)
        (results : list (string * PyFloat.float * option (gmap string MetaVal)))
        : M (list string) :=
      match results with
      | [] => mret []
      | (chunk, score, metadata) :: rest =>
          name ← meta_get metadata "document_name";
          let doc_name := default (MStr "Unknown") name in
          parts ← context_parts (i + 1) rest;
          mret (("[Source " +:+ pretty i +:+ " - " +:+ meta_str doc_name
                 +:+ "] (Relevance: " +:+ format_2f env score +:+ "):"
                 +:+ nl +:+ chunk) :: parts)
      end.

Fixpoint make_sources
        (results : list (string * PyFloat.float * option (gmap string MetaVal)))
        : M (list Source) :=
      match results with
      | [] => mret []
      | (chunk, score, metadata) :: rest =>
          document ← meta_get metadata "document_name";
          type ← meta_get metadata "document_type";
          srcs ← make_sources rest;
          mret (mkSource chunk score document type :: srcs)
      end.

Definition generate_response (query : string) (top_k : Z)
        (document_filter : option string) : M Response :=
      results ← search query top_k document_filter;
      parts ← context_parts 1 results;
      let context := join (nl +:+ nl) parts in
      let user := user_message context query in
      modify (log_request (ChatRequest system_message user));;
      choices ← lift ProviderError (chat_create env system_message user);
      answer ← index0 choices;
      srcs ← make_sources results;
      mret (mkResponse answer srcs context).

End Methods.

End Rag.

(** ** [get_stats] *)

Module Stats.

(** The dict [get_stats] returns: the error dict, or the statistics. *)
Inductive StatsDict :=
| StatsError (error : string)
| StatsOf (total_chunks : Z) (total_documents : Z)
          (docs : gmap MetaVal DocInfo)
          (name embedding_model chat_model : string).

Definition embedding_model : string := "text-embedding-3-small".

(** [get_stats], for an instance whose [self.model] is [model].  The
    handle [self.collection] is kept as the name of the collection and
    [count()] is answered by the collection the store has under that
    name; a collection that another client deleted and created again
    under the same name is not told apart from the one the handle was
    obtained for. *)
Definition get_stats (model : string) : M StatsDict :=
  st ← get_state;
  match collection st with
  | None => mret (StatsError "Collection not loaded")
  | Some handle =>
      (* total_chunks = self.collection.count() *)
      entries ← Rag.collection_entries handle;
      mret (StatsOf (Z.of_nat (length entries))
                    (Z.of_nat (size (documents st))) (documents st)
                    Rag.collection_name embedding_model model)
  end.

End Stats.

(** ** The web interface: [IndustrialWebInterface] in [industrial_app.py] *)

Module App.

(** One element of the chat history: [{"role": ..., "content": ...}]. *)
Record Message := mkMessage { role : string; content : string }.

(** One element of [self.conversation_history]. *)
Record Exchange := mkExchange {
  ex_timestamp : string;
  ex_query : string;
  ex_answer : string;
  ex_sources : list Rag.Source;
  ex_filter : string
}.

(** The interface object: [self.rag] and [self.conversation_history]. *)
Record AppState := mkAppState {
  rag : State;
  conversation_history : list Exchange
}.

Definition placeholder : string := "⚙️ Searching directives...".

(** [f"Error processing query: {str(e)}\n\nPlease try rephrasing your question."] *)
Definition error_msg (e : Exn) : string :=
  "Error processing query: " +:+ exn_str e +:+ nl +:+ nl
  +:+ "Please try rephrasing your question.".

(** [history[-1]['content'] = c], on a non-empty history. *)
Definition set_last_content (c : string) (history : list Message)
    : list Message :=
  match reverse history with
  | m :: before => reverse before ++ [mkMessage (role m) c]
  | [] => []
  end.

(** [not message or not message.strip()] *)
Definition blank (message : string) : bool :=
  negb (PyStr.truthy (PyStr.strip (list_ascii_of_string message))).

(** The generator [chat]: the histories it yields, in order, whether it
    runs to its end, and the interface afterwards.  [now] is what
    [datetime.now().isoformat()] answers.  The yielded values are the one
    list object [history] as it is at each yield. *)
Definition chat (env : Env) (now : string) (message : string)
    (history : list Message) (document_filter : string) (app : AppState)
    : list (list Message) * Result unit * AppState :=
  if blank message then ([], Ok tt, app)
  else
    let history1 := history ++ [mkMessage "user" message] in
    let history2 := history1 ++ [mkMessage "assistant" placeholder] in
    let filter :=
      if String.eqb document_filter "All Documents" then None
      else Some document_filter in
    match Rag.generate_response env message 5 filter (rag app) with
    | (Ok response, st') =>
        let exchange :=
          mkExchange now message (Rag.answer response) (Rag.sources response)
                     document_filter in
        ([history2; set_last_content (Rag.answer response) history2], Ok tt,
         mkAppState st' (conversation_history app ++ [exchange]))
    | (Raise e, st') =>
        ([history2; set_last_content (error_msg e) history2], Ok tt,
         mkAppState st' (conversation_history app))
    | (Diverge, st') =>
        ([history2], Diverge, mkAppState st' (conversation_history app))
    end.

(** [clear_chat]: the list it returns and the interface afterwards. *)
Definition clear_chat (app : AppState) : list Message * AppState :=
  ([], mkAppState (rag app) []).

End App.

(** ** The loops of [load_index] as functions on the registry *)

Module Registry.

  (** The record the first loop creates from a metadata. *)
Definition new_record (m : gmap string MetaVal) : DocInfo :=
    mkDocInfo (default (MStr "Unknown") (m !! "document_name"))
              (default (MStr "Unknown") (m !! "document_type"))
              (default (MStr "") (m !! "source_file")) 0.

  (** One iteration of the first loop, for a metadata that is a dict. *)
Definition register (reg : gmap MetaVal DocInfo)
      (meta : option (gmap string MetaVal)) : gmap MetaVal DocInfo :=
    match meta with
    | Some m =>
        match m !! "document_id" with
        | Some id =>
            if meta_truthy id && bool_decide (reg !! id = None)
            then <[id := new_record m]> reg
            else reg
        | None => reg
        end
    | None => reg
    end.

Definition add_chunk (info : DocInfo) : DocInfo :=
    mkDocInfo (doc_name info) (doc_type info) (doc_path info)
              (doc_chunks info + 1).

Definition add_chunks (n : Z) (info : DocInfo) : DocInfo :=
    mkDocInfo (doc_name info) (doc_type info) (doc_path info)
              (doc_chunks info + n).

  (** One iteration of the second loop. *)
Definition count (reg : gmap MetaVal DocInfo)
      (meta : option (gmap string MetaVal)) : gmap MetaVal DocInfo :=
    match meta with
    | Some m =>
        match m !! "document_id" with
        | Some id =>
            match reg !! id with
            | Some info => <[id := add_chunk info]> reg
            | None => reg
            end
        | None => reg
        end
    | None => reg
    end.

End Registry.

(** ** The chunking rule in the words of the specification *)

Module ChunkerSpec.

  (** A sentence-terminal character. *)
Definition is_terminal (c : ascii) : bool :=
    Ascii.eqb c "."%char || Ascii.eqb c "?"%char || Ascii.eqb c "!"%char.

  (** The window [[start, start + S)] of the text. *)
Definition window (text : pystr) (start S : Z) : pystr :=
    take (Z.to_nat S) (drop (Z.to_nat start) text).

  (** Position, inside the window, of its last sentence-terminal
      character. *)
Fixpoint last_terminal (w : pystr) : option nat :=
    match w with
    | [] => None
    | c :: w' =>
        match last_terminal w' with
        | Some p => Some (S p)
        | None => if is_terminal c then Some O else None
        end
    end.

  (** The chunk taken at [start] and the position where it ends. *)
Definition spec_cut (text : pystr) (S start : Z) : pystr * Z :=
    let w := window text start S in
    if start + S <? Z.of_nat (length text) then
      match last_terminal w with
      | Some p =>
          if S <? 2 * Z.of_nat p
          then (take (p + 1) w, start + Z.of_nat p + 1)
          else (w, start + S)
      | None => (w, start + S)
      end
    else (w, start + S).

Definition spec_step (text : pystr) (S O : Z) (st : loop_state) : loop_state :=
    let '(chunk, end_) := spec_cut text S (start st) in
    {| start := end_ - O;
       chunks := if decide (strip chunk = []) then chunks st
                 else chunks st ++ [strip chunk] |}.

  (** The rule repeated while [start] lies inside the text, at most [n]
      times. *)
Fixpoint spec_run (n : nat) (text : pystr) (size overlap : Z)
      (st : loop_state) : loop_state :=
    match n with
    | 0%nat => st
    | Datatypes.S n' =>
        if start st <? Z.of_nat (length text)
        then spec_run n' text size overlap (spec_step text size overlap st)
        else st
    end.

  (** The chunks the rule yields for a text; [len(text)] repetitions are
      enough as soon as every repetition advances [start]. *)
Definition spec_chunks (text : pystr) (size overlap : Z) : list pystr :=
    chunks (spec_run (length text) text size overlap
                     {| start := 0; chunks := [] |}).


End ChunkerSpec.

(** ** The reloaded registry in the words of the specification *)

Module RegistrySpec.

Definition doc_id_of (meta : option (gmap string MetaVal)) : option MetaVal :=
    meta ≫= (λ m, m !! "document_id").

  (** The first sampled metadata bearing the identifier [id]. *)
Fixpoint first_with_id (id : MetaVal)
      (sample : list (option (gmap string MetaVal)))
      : option (gmap string MetaVal) :=
    match sample with
    | [] => None
    | meta :: rest =>
        if decide (doc_id_of meta = Some id)
        then meta
        else first_with_id id rest
    end.

  (** How many sampled metadatas bear the identifier [id]. *)
Definition count_with_id (id : MetaVal)
      (sample : list (option (gmap string MetaVal))) : Z :=
    Z.of_nat (length (filter (λ meta, doc_id_of meta = Some id) sample)).

  (** The record the registry is to hold for [id]. *)
Definition expected_record (sample : list (option (gmap string MetaVal)))
      (id : MetaVal) : option DocInfo :=
    m ← first_with_id id sample;
    Some (mkDocInfo (default (MStr "Unknown") (m !! "document_name"))
                    (default (MStr "Unknown") (m !! "document_type"))
                    (default (MStr "") (m !! "source_file"))
                    (count_with_id id sample)).

  (** The sample [load_index] reads: the metadata of the first
      [min(size, 1000)] entries. *)
Definition sample_of (entries : list Entry)
      : list (option (gmap string MetaVal)) :=
    entry_metadata <$> take 1000 entries.

End RegistrySpec.

(** ** Where an ingestion run stops *)

Definition succeeded {A} (r : Result A) : bool :=
  match r with Ok _ => true | _ => false end.


(** The instance after a run of [build_index] that got as far as the
    store with the collection [name] holding [entries]. *)
Definition built (name : string) (entries : list Entry) (st : State) : State :=
  mkState (Some name) (documents st) (<[name := entries]> (chroma st))
          (requests st).

(** ** The normalisation on finite distances *)

(** What [max_from], [max_dist] and [similarities] compute on distances
    that are all finite. *)
Module Exact.

Fixpoint max_from (best : Q) (l : list Q) : Q :=
    match l with
    | [] => best
    | d :: l' => max_from (if Qlt_le_dec best d then d else best) l'
    end.

Definition max_dist (distances : list Q) : Q :=
    match distances with
    | [] => 1
    | d :: l => max_from d l
    end.

Definition similarities (distances : list Q) : list Q :=
    let m := max_dist distances in
    (λ d, if Qlt_le_dec 0 m then 1 - d / m else 1)%Q <$> distances.

End Exact.

(** ** What the specification asks of the scores *)

Module ScoreSpec.

  (** A finite distance that is not negative. *)
Definition finite_nonneg (d : PyFloat.float) : Prop :=
    ∃ x, d = PyFloat.Finite x ∧ (0 <= x)%Q.

Section Normalized.
Variables (r : QueryResult)
              (res : list (string * PyFloat.float * option (gmap string MetaVal))).

    (** One result per hit of the store, the i-th result being its i-th
        hit. *)
Definition store_order : Prop :=
      length res = length (res_distances r) ∧
      ∀ i c s m, res !! i = Some (c, s, m) →
        res_documents r !! i = Some c ∧ res_metadatas r !! i = Some m.

    (** Every score lies in [0, 1]. *)
Definition bounded : Prop :=
      ∀ i c s m, res !! i = Some (c, s, m) →
        PyFloat.le (PyFloat.Finite 0) s = true ∧
        PyFloat.le s (PyFloat.Finite 1) = true.

    (** A smaller distance never has a smaller score. *)
Definition closest_scores_highest : Prop :=
      ∀ i j ci si mi cj sj mj di dj,
        res !! i = Some (ci, si, mi) → res !! j = Some (cj, sj, mj) →
        res_distances r !! i = Some di → res_distances r !! j = Some dj →
        PyFloat.le di dj = true → PyFloat.le sj si = true.

    (** [mx] is the maximum distance of the result set. *)
Definition largest (mx : PyFloat.float) : Prop :=
      mx ∈ res_distances r ∧
      Forall (λ d, PyFloat.le d mx = true) (res_distances r).

    (** The score of a hit at distance [d] is 1 - d / max when the maximum
        distance is positive, and 1 otherwise. *)
Definition normalized : Prop :=
      ∀ mx, largest mx →
      ∀ i c s m d, res !! i = Some (c, s, m) → res_distances r !! i = Some d →
        if PyFloat.lt (PyFloat.Finite 0) mx
        then PyFloat.eqb s (PyFloat.sub (PyFloat.Finite 1) (PyFloat.div d mx))
             = true
        else s = PyFloat.Finite 1.

Definition all_one_when_max_zero : Prop :=
      ∀ mx, largest mx → PyFloat.eqb mx (PyFloat.Finite 0) = true →
      ∀ i c s m, res !! i = Some (c, s, m) → s = PyFloat.Finite 1.

End Normalized.

End ScoreSpec.

(** ** Assumptions on the store *)

(** The store honours equality filters: whatever a query returns is the
    metadata of a stored entry that satisfies the [where] clause. *)
Definition honors_filter (env : Env) : Prop :=
  ∀ entries e k w r,
    store_query env entries e k w = inr r →
    Forall (λ m, matches w m = true ∧ m ∈ entry_metadata <$> entries)
           (res_metadatas r).

(** ** A reference environment *)

Module Reference.

  (** Squared euclidean distance. *)
Fixpoint sq_distance (a b : Embedding) : Q :=
    match a, b with
    | x :: a', y :: b' => ((x - y) * (x - y) + sq_distance a' b')%Q
    | _, _ => 0%Q
    end.

Fixpoint insert_hit (h : Q * Entry) (l : list (Q * Entry)) : list (Q * Entry) :=
    match l with
    | [] => [h]
    | h' :: l' =>
        if Qlt_le_dec (fst h) (fst h') then h :: l else h' :: insert_hit h l'
    end.

Definition sort_hits (l : list (Q * Entry)) : list (Q * Entry) :=
    foldr insert_hit [] l.

  (** Nearest neighbours among the entries that satisfy the filter. *)
Definition hits (entries : list Entry) (e : Embedding) (k : Z)
      (w : option Where) : list (Q * Entry) :=
    take (Z.to_nat k)
      (sort_hits ((λ x, (sq_distance e (entry_embedding x), x))
                    <$> filter (λ x, matches w (entry_metadata x) = true) entries)).

Definition answer (entries : list Entry) (e : Embedding) (k : Z)
      (w : option Where) : QueryResult :=
    let hs := hits entries e k w in
    mkQueryResult (entry_document ∘ snd <$> hs) (PyFloat.Finite ∘ fst <$> hs)
                  (entry_metadata ∘ snd <$> hs).

Definition query (entries : list Entry) (e : Embedding) (k : Z)
      (w : option Where) : string + QueryResult :=
    inr (answer entries e k w).

Definition embed (batch : list string) : string + list Embedding :=
    inr ((λ t, [inject_Z (Z.of_nat (String.length t)); 1%Q]) <$> batch).

Definition env : Env :=
    {| pdf_pages := λ _, inr [Some "First page. "; None; Some "Second page."];
       path_stem := λ p, p;
       embeddings_create := embed;
       chat_create := λ _ _, inr ["No relevant information was found."];
       create_fault := λ _, None;
       add_fault := λ _ _ _ _, None;
       store_query := query;
       format_2f := λ _, "1.00" |}.



  (** What [embed] answers with. *)
Definition embed_ok (batch : list string) : list Embedding :=
    (λ t, [inject_Z (Z.of_nat (String.length t)); 1%Q]) <$> batch.

  (** The same collaborators with an embedding provider that rejects every
      batch of fewer than 100 texts. *)
Definition env_embed_fails_short : Env :=
    {| pdf_pages := pdf_pages env; path_stem := path_stem env;
       embeddings_create := λ batch,
         if (length batch <? 100)%nat then inl "rate limit exceeded"
         else embed batch;
       chat_create := chat_create env; create_fault := create_fault env;
       add_fault := add_fault env;
       store_query := store_query env; format_2f := format_2f env |}.

Definition meta (id name : string) (i : Z) : gmap string MetaVal :=
    Rag.chunk_metadata id (Rag.mkDocSpec (id +:+ ".pdf") name "Measurement") i.

Definition entries : list Entry :=
    [ mkEntry "chunk_0" [3%Q; 1%Q] "alpha" (Some (meta "directive_001" "Directive 001" 0));
      mkEntry "chunk_1" [5%Q; 1%Q] "beta" (Some (meta "directive_017" "Directive 017" 0));
      mkEntry "chunk_2" [9%Q; 1%Q] "gamma" (Some (meta "directive_017" "Directive 017" 1)) ].

  (** A freshly constructed instance over a store that holds [entries]. *)
Definition fresh : State :=
    mkState None ∅ {[ Rag.collection_name := entries ]} [].

  (** The same instance once the collection is loaded. *)
Definition loaded : State :=
    mkState (Some Rag.collection_name) ∅ {[ Rag.collection_name := entries ]} [].

  (** A store whose only entry carries an empty [document_id]. *)
Definition anonymous_entry : Entry :=
    mkEntry "chunk_0" [1%Q; 1%Q] "text" (Some {[ "document_id" := MStr "" ]}).

Definition fresh_anonymous : State :=
    mkState None ∅ {[ Rag.collection_name := [anonymous_entry] ]} [].

  (** A store above the sample cap: one chunk of document "a" followed by
      a thousand chunks of document "b". *)
Definition chunk_of (id : string) : Entry :=
    mkEntry "chunk" [1%Q; 1%Q] "text" (Some {[ "document_id" := MStr id ]}).

Definition large_entries : list Entry :=
    chunk_of "a" :: replicate 1000 (chunk_of "b").

Definition fresh_large : State :=
    mkState None ∅ {[ Rag.collection_name := large_entries ]} [].

  (** A store with an entry that was added without metadata. *)
Definition bare_entry : Entry := mkEntry "chunk_3" [4%Q; 1%Q] "delta" None.

Definition fresh_bare : State :=
    mkState None ∅ {[ Rag.collection_name := entries ++ [bare_entry] ]} [].

Definition loaded_bare : State :=
    mkState (Some Rag.collection_name) ∅
            {[ Rag.collection_name := entries ++ [bare_entry] ]} [].

  (** The same collaborators with a store that answers every query with
      two hits, the second at an infinite distance. *)
Definition far_answer : QueryResult :=
    mkQueryResult ["alpha"; "beta"] [PyFloat.Finite 1; PyFloat.PosInf]
                  [Some ∅; Some ∅].

Definition env_far : Env :=
    {| pdf_pages := pdf_pages env; path_stem := path_stem env;
       embeddings_create := embeddings_create env;
       chat_create := chat_create env; create_fault := create_fault env;
       add_fault := add_fault env;
       store_query := λ _ _ _ _, inr far_answer;
       format_2f := format_2f env |}.

  (** The same collaborators with PDFs that have no text layer. *)
Definition env_scanned : Env :=
    {| pdf_pages := λ _, inr [None; Some ""; None];
       path_stem := path_stem env;
       embeddings_create := embeddings_create env;
       chat_create := chat_create env; create_fault := create_fault env;
       add_fault := add_fault env;
       store_query := store_query env; format_2f := format_2f env |}.

End Reference.

Import Rag.

(** * Properties *)

(** ** Strings *)

Section StringFacts.
Import ChunkerSpec.







Lemma lstrip_spaces s : Forall (λ c, isspace c = true) s → lstrip s = [].
Proof. induction 1 as [|c s Hc _ IH]; simpl; [done|]. by rewrite Hc. Qed.

Lemma strip_spaces s : Forall (λ c, isspace c = true) s → strip s = [].
Proof. intros Hs. unfold strip. by rewrite lstrip_spaces. Qed.

Lemma truthy_spec s : truthy s = true ↔ s ≠ [].
Proof. by destruct s. Qed.

Lemma slice_nonneg s lo hi :
    0 ≤ lo → lo ≤ hi →
    slice s lo hi = take (Z.to_nat (hi - lo)) (drop (Z.to_nat lo) s).
Proof.
    intros Hlo Hhi. unfold slice, adjust_index.
    destruct (Z.ltb_spec lo 0); [lia|].
    destruct (Z.ltb_spec hi 0); [lia|].
    destruct (Z_le_gt_dec lo (Z.of_nat (length s))) as [Hle|Hgt].
    - rewrite (Z.min_l lo) by lia.
      destruct (Z_le_gt_dec hi (Z.of_nat (length s))).
      + by rewrite Z.min_l by lia.
      + rewrite Z.min_r by lia.
        rewrite !take_ge; [done|rewrite length_drop; lia..].
    - rewrite !drop_ge by lia. by rewrite !take_nil.
Qed.


Lemma rfind_ge c s : -1 ≤ rfind c s.
Proof.
    induction s as [|x s IH]; simpl; [lia|].
    destruct (Z.leb_spec 0 (rfind c s)); [lia|]. destruct (Ascii.eqb x c); lia.
Qed.

Lemma rfind_lt c s : rfind c s < Z.of_nat (length s).
Proof.
    induction s as [|x s IH]; simpl length; simpl rfind; [lia|].
    destruct (Z.leb_spec 0 (rfind c s)); [lia|]. destruct (Ascii.eqb x c); lia.
Qed.


Lemma last_period_lt chunk : last_period chunk < Z.of_nat (length chunk).
Proof.
    unfold last_period.
    pose proof (rfind_lt "."%char chunk). pose proof (rfind_lt "?"%char chunk).
    pose proof (rfind_lt "!"%char chunk). lia.
Qed.

Lemma last_period_cons x s :
    last_period (x :: s) =
      if 0 <=? last_period s then last_period s + 1
      else if is_terminal x then 0 else -1.
Proof.
    unfold last_period, is_terminal. simpl.
    pose proof (rfind_ge "."%char s). pose proof (rfind_ge "?"%char s).
    pose proof (rfind_ge "!"%char s).
    repeat match goal with
           | |- context [Z.leb ?a ?b] => destruct (Z.leb_spec a b)
           | |- context [Ascii.eqb ?a ?b] => destruct (Ascii.eqb a b)
           end; simpl; lia.
Qed.

  (** [last_period] is the position of the last sentence-terminal
      character, [-1] standing for none. *)
Lemma last_period_terminal chunk :
    last_period chunk =
      match last_terminal chunk with Some p => Z.of_nat p | None => -1 end.
Proof.
    induction chunk as [|x s IH]; [done|].
    rewrite last_period_cons, IH. simpl.
    destruct (last_terminal s) as [p|].
    - destruct (Z.leb_spec 0 (Z.of_nat p)); lia.
    - simpl. by destruct (is_terminal x).
Qed.


End StringFacts.

(** ** Chunker *)

Section ChunkerFacts.
Import ChunkerSpec.

Variables (text : pystr) (chunk_size overlap : Z).

Local Abbreviation step := (chunk_step text chunk_size overlap).
Local Abbreviation init := {| start := 0; chunks := [] |}.

Lemma chunk_step_start st :
    start (step st) = snd (cut text chunk_size (start st)) - overlap.
Proof. unfold chunk_step. by destruct (cut _ _ _). Qed.

Lemma chunk_step_chunks st :
    chunks (step st) = emit (fst (cut text chunk_size (start st))) (chunks st).
Proof. unfold chunk_step. by destruct (cut _ _ _). Qed.

  (** Where a chunk can end: at the end of the window, or just after a
      sentence-terminal character lying past the middle of the window. *)
Lemma cut_end s :
    snd (cut text chunk_size s) = s + chunk_size ∨
    ∃ lp, chunk_size < 2 * lp ∧ snd (cut text chunk_size s) = s + lp + 1.
Proof.
    unfold cut. destruct (_ <? Z.of_nat _); [|by left].
    destruct (Z.ltb_spec chunk_size (2 * last_period (slice text s (s + chunk_size))));
      [right; eauto | by left].
Qed.

Lemma chunk_loop_iterate fuel st :
    chunk_loop fuel text chunk_size overlap st =
      let st' := iterate fuel text chunk_size overlap st in
      if running text st' then None else Some (chunks st').
Proof.
    revert st. induction fuel as [|fuel IH]; intros st; simpl.
    - by destruct (running text st).
    - destruct (running text st) eqn:Hrun; [apply IH | by rewrite Hrun].
Qed.

Lemma chunk_loop_more fuel k st r :
    chunk_loop fuel text chunk_size overlap st = Some r →
    chunk_loop (fuel + k) text chunk_size overlap st = Some r.
Proof.
    revert st. induction fuel as [|fuel IH]; intros st; simpl.
    - destruct (running text st) eqn:Hrun; [done|].
      intros <-. destruct k; simpl; by rewrite Hrun.
    - destruct (running text st); [apply IH | done].
Qed.

Lemma chunk_loop_functional f1 f2 st r1 r2 :
    chunk_loop f1 text chunk_size overlap st = Some r1 →
    chunk_loop f2 text chunk_size overlap st = Some r2 → r1 = r2.
Proof.
    intros H1 H2.
    apply (chunk_loop_more _ f2) in H1. apply (chunk_loop_more _ f1) in H2.
    rewrite (Nat.add_comm f2 f1) in H2. congruence.
Qed.

  (** The loop stops within [len(text) - start] iterations as soon as
      every iteration moves [start] forward. *)
Lemma iterate_stops fuel st :
    (∀ st, start st + 1 ≤ start (step st)) →
    (Z.to_nat (Z.of_nat (length text) - start st) ≤ fuel)%nat →
    running text (iterate fuel text chunk_size overlap st) = false.
Proof.
    intros Hprog. revert st. induction fuel as [|fuel IH]; intros st Hfuel; simpl.
    - unfold running. apply Z.ltb_ge. lia.
    - destruct (running text st) eqn:Hrun; [|done].
      apply IH. specialize (Hprog st). unfold running in Hrun.
      apply Z.ltb_lt in Hrun. lia.
Qed.

Lemma progress_gives_result :
    (∀ st, start st + 1 ≤ start (step st)) →
    chunk_text (length text) text chunk_size overlap =
      Some (chunks (iterate (length text) text chunk_size overlap init)).
Proof.
    intros Hprog. unfold chunk_text. rewrite chunk_loop_iterate. simpl.
    rewrite iterate_stops; [done|done|simpl; lia].
Qed.

Lemma step_progress st :
    overlap < chunk_size → 2 * overlap ≤ chunk_size + 2 →
    start st + 1 ≤ start (step st).
Proof.
    intros Hlt Hhalf. rewrite chunk_step_start.
    destruct (cut_end (start st)) as [-> | (lp & Hlp & ->)]; lia.
Qed.

Lemma iterate_start_nonneg n st :
    overlap < chunk_size → 2 * overlap ≤ chunk_size + 2 →
    0 ≤ start st → 0 ≤ start (iterate n text chunk_size overlap st).
Proof.
    intros Hlt Hhalf. revert st. induction n as [|n IH]; intros st Hst; simpl; [done|].
    destruct (running text st); [|done].
    apply IH. pose proof (step_progress st Hlt Hhalf). lia.
Qed.

Lemma cut_spec s :
    0 ≤ s → 0 ≤ chunk_size → cut text chunk_size s = spec_cut text chunk_size s.
Proof.
    intros Hs HS. unfold cut, spec_cut, window.
    rewrite slice_nonneg by lia.
    replace (s + chunk_size - s) with chunk_size by lia.
    set (w := take _ _).
    destruct (_ <? Z.of_nat _); [|done].
    rewrite last_period_terminal.
    destruct (last_terminal w) as [p|].
    - destruct (chunk_size <? 2 * Z.of_nat p); [|done].
      unfold slice_to. rewrite slice_nonneg by lia. simpl drop.
      do 2 f_equal. lia.
    - by destruct (Z.ltb_spec chunk_size (2 * -1)); [lia|].
Qed.

Lemma emit_spec c cs :
    emit c cs = if decide (strip c = []) then cs else cs ++ [strip c].
Proof. unfold emit. destruct (strip c); by case_decide. Qed.

Lemma step_spec st :
    0 ≤ start st → 0 ≤ chunk_size →
    step st = spec_step text chunk_size overlap st.
Proof.
    intros Hs HS. unfold chunk_step, spec_step. rewrite cut_spec by done.
    destruct (spec_cut _ _ _). by rewrite emit_spec.
Qed.






  (** The last window of the text: nothing is cut. *)
Lemma cut_final s :
    0 ≤ s → Z.of_nat (length text) ≤ s + chunk_size →
    fst (cut text chunk_size s) = drop (Z.to_nat s) text.
Proof.
    intros Hs Hend. unfold cut.
    destruct (Z.ltb_spec (s + chunk_size) (Z.of_nat (length text))); [lia|]. simpl.
    destruct (Z_le_gt_dec s (s + chunk_size)).
    - rewrite slice_nonneg by lia. apply take_ge. rewrite length_drop. lia.
    - unfold slice, adjust_index.
      destruct (Z.ltb_spec s 0); [lia|].
      destruct (Z.ltb_spec (s + chunk_size) 0); [lia|].
      rewrite !drop_ge by lia. by rewrite take_nil.
Qed.

End ChunkerFacts.

(** *** Termination of the chunking loop *)

Lemma looping_step cs :
  chunk_step looping_text 10 7 {| start := 0; chunks := cs |} =
    {| start := 0; chunks := cs ++ [list_ascii_of_string "aaaaaa."] |}.
Proof. vm_compute. reflexivity. Qed.

Lemma looping_loop fuel cs :
  chunk_loop fuel looping_text 10 7 {| start := 0; chunks := cs |} = None.
Proof.
  revert cs. induction fuel as [|fuel IH]; intros cs; [done|].
  change (chunk_loop (S fuel) looping_text 10 7 {| start := 0; chunks := cs |})
    with (chunk_loop fuel looping_text 10 7
            (chunk_step looping_text 10 7 {| start := 0; chunks := cs |})).
  rewrite looping_step. apply IH.
Qed.

(** C2, as stated, fails: with chunk size 10 and overlap 7 (so S > 0 and
    O < S) the text "aaaaaa.aaaaaaaaaaaaa" is cut after the full stop at
    position 6, [start] returns to 0, and no number of iterations ends the
    loop. *)
Lemma chunk_text_overlap_7_of_10_never_returns :
  0 < 10 ∧ 7 < 10 ∧
  ∀ fuel, chunk_text fuel looping_text 10 7 = None.
Proof. split; [lia|]. split; [lia|]. intros fuel. apply looping_loop. Qed.

(** C2, amended: for every text, every chunk size S > 0 and every overlap O
    with O < S and 2 * O <= S + 2, every iteration moves [start] forward by
    at least one, and the loop of [chunk_text] ends within [len(text)]
    iterations, returning the chunks collected so far. *)
Theorem chunk_text_terminates (text : pystr) (chunk_size overlap : Z) :
  0 < chunk_size → overlap < chunk_size → 2 * overlap ≤ chunk_size + 2 →
  (∀ st, start st + 1 ≤ start (chunk_step text chunk_size overlap st)) ∧
  ∃ cs, chunk_text (length text) text chunk_size overlap = Some cs.
Proof.
  intros _ Hlt Hhalf.
  assert (Hprog : ∀ st, start st + 1 ≤ start (chunk_step text chunk_size overlap st)).
  { intros st. by apply step_progress. }
  split; [done|]. eexists. by apply progress_gives_result.
Qed.

Lemma chunk_text_terminates_witness :
  ∃ cs, chunk_text 20 looping_text 10 6 = Some cs.
Proof.
  apply (chunk_text_terminates looping_text 10 6); lia.
Defined.

(** *** The chunking rule *)

Lemma iterate_spec_run (text : pystr) (chunk_size overlap : Z) n st :
  0 ≤ chunk_size → overlap < chunk_size → 2 * overlap ≤ chunk_size + 2 →
  0 ≤ start st →
  iterate n text chunk_size overlap st
    = ChunkerSpec.spec_run n text chunk_size overlap st.
Proof.
  intros HS Hlt Hhalf. revert st.
  induction n as [|n IH]; intros st Hst; simpl; [done|].
  unfold running. destruct (start st <? Z.of_nat (length text)); [|done].
  rewrite <- step_spec by done. apply IH.
  pose proof (step_progress text chunk_size overlap st Hlt Hhalf). lia.
Qed.

(** C5, as stated, fails: with chunk size 10 and overlap 8 the first
    iteration on "aaaaaa.aaaaaaaaaaaaa" cuts after the full stop and leaves
    [start] at -1; the second iteration, which runs, then takes
    [text[-1:9]], the empty string, although the positions 0 to 8 of the
    text hold "aaaaaa.aa", and appends nothing; it is not the step of the
    rule.  The run itself returns. *)
Lemma chunk_step_at_negative_start_takes_nothing :
  let st1 := iterate 1 looping_text 10 8 {| start := 0; chunks := [] |} in
  0 < 10 ∧ 8 < 10 ∧
  running looping_text st1 = true ∧ start st1 = -1 ∧
  cut looping_text 10 (start st1) = ([], 9) ∧
  take 9 looping_text = list_ascii_of_string "aaaaaa.aa" ∧
  chunks (chunk_step looping_text 10 8 st1) = chunks st1 ∧
  chunk_step looping_text 10 8 st1
    ≠ ChunkerSpec.spec_step looping_text 10 8 st1 ∧
  is_Some (chunk_text 20 looping_text 10 8).
Proof.
  intros st1. subst st1.
  repeat split; try lia; try (vm_compute; reflexivity).
  - vm_compute. discriminate.
  - vm_compute. eauto.
Qed.

(** C5, amended: for every text, every chunk size S > 0 and every overlap
    O with O < S and 2 * O <= S + 2, every iteration of [chunk_text]
    starts at a position [start >= 0] and is the step of the rule: it takes
    the window [start, start + S); when the window stops short of the end
    of the text and its last '.', '?' or '!' lies at a position p with
    2 * p > S, the chunk is the window up to and including that character
    and ends at start + p + 1; otherwise the chunk is the whole window;
    [start] then becomes end - O.  [chunk_text] returns, and what it
    returns is the chunk sequence the rule yields for (text, S, O), the
    same at every call. *)
Theorem chunk_step_follows_rule (text : pystr) (chunk_size overlap : Z) :
  0 < chunk_size → overlap < chunk_size → 2 * overlap ≤ chunk_size + 2 →
  (∀ n, let st := iterate n text chunk_size overlap
                    {| start := 0; chunks := [] |} in
        0 ≤ start st ∧
        chunk_step text chunk_size overlap st =
          ChunkerSpec.spec_step text chunk_size overlap st) ∧
  (∀ fuel, (length text ≤ fuel)%nat →
     chunk_text fuel text chunk_size overlap
       = Some (ChunkerSpec.spec_chunks text chunk_size overlap)) ∧
  (∀ fuel cs, chunk_text fuel text chunk_size overlap = Some cs →
     cs = ChunkerSpec.spec_chunks text chunk_size overlap).
Proof.
  intros HS Hlt Hhalf.
  assert (Hrun : chunk_text (length text) text chunk_size overlap
                 = Some (ChunkerSpec.spec_chunks text chunk_size overlap)).
  { rewrite progress_gives_result by (intros st; by apply step_progress).
    unfold ChunkerSpec.spec_chunks.
    by rewrite iterate_spec_run by (simpl; lia). }
  split; [|split].
  - intros n st.
    assert (0 ≤ start st) by (by apply iterate_start_nonneg).
    split; [done|]. apply step_spec; lia.
  - intros fuel Hfuel.
    replace fuel with (length text + (fuel - length text))%nat by lia.
    by apply chunk_loop_more.
  - intros fuel cs Hcs. by eapply chunk_loop_functional.
Qed.

Lemma chunk_step_follows_rule_witness :
  chunk_text 47 sample_text 20 5
    = Some (ChunkerSpec.spec_chunks sample_text 20 5) ∧
  ChunkerSpec.spec_chunks sample_text 20 5 =
    list_ascii_of_string <$>
      ["Hello world."; "orld. This is a test"; "test! And more text";
       "text here"]%string.
Proof.
  destruct (chunk_step_follows_rule sample_text 20 5) as (_ & Hrun & _);
    [lia..|].
  split; [apply Hrun; simpl; lia | vm_compute; reflexivity].
Defined.

(** *** Chunks are trimmed and non-empty *)





(** ** Retrieval *)

Section SearchFacts.
Variable env : Env.

Lemma search_not_loaded q k f st :
    collection st = None →
    search env q k f st = (Raise (ValueError "Collection not loaded"), st).
Proof. intros Hc. unfold search. unfold_monad. by rewrite Hc. Qed.

Lemma search_ok_inv q k f st res st' :
    search env q k f st = (Ok res, st') →
    ∃ h entries v vs r,
      collection st = Some h ∧ chroma st !! h = Some entries ∧
      embeddings_create env [q] = inr (v :: vs) ∧
      store_query env entries v k (where_filter f) = inr r ∧
      res = zip3 (res_documents r) (similarities (res_distances r))
                 (res_metadatas r) ∧
      st' = log_request (EmbeddingRequest [q]) st.
Proof.
    unfold search, collection_query, collection_entries. unfold_monad.
    destruct (collection st) as [h|] eqn:Hc; [|done]. simpl.
    destruct (embeddings_create env [q]) as [msg|[|v vs]] eqn:He; simpl; [done..|].
    destruct (chroma st !! h) as [entries|] eqn:Hs; simpl; [|done].
    destruct (store_query env entries v k (where_filter f)) as [msg|r] eqn:Hq;
      simpl; [done|].
    intros [= <- <-]. by exists h, entries, v, vs, r.
Qed.

Lemma search_ok q k f st h entries v vs r :
    collection st = Some h → chroma st !! h = Some entries →
    embeddings_create env [q] = inr (v :: vs) →
    store_query env entries v k (where_filter f) = inr r →
    search env q k f st =
      (Ok (zip3 (res_documents r) (similarities (res_distances r))
                (res_metadatas r)),
       log_request (EmbeddingRequest [q]) st).
Proof.
    intros Hc Hs He Hq.
    unfold search, collection_query, collection_entries. unfold_monad.
    rewrite Hc. simpl. rewrite He. simpl. rewrite Hs. simpl. by rewrite Hq.
Qed.

End SearchFacts.

Lemma zip3_lookup {A B C} (l1 : list A) (l2 : list B) (l3 : list C) i a b c :
  zip3 l1 l2 l3 !! i = Some (a, b, c) →
  l1 !! i = Some a ∧ l2 !! i = Some b ∧ l3 !! i = Some c.
Proof.
  revert l2 l3 i.
  induction l1 as [|x l1 IH]; intros [|y l2] [|z l3] i; simpl; try done.
  destruct i as [|i]; simpl; [by intros [= -> -> ->] | apply IH].
Qed.

Lemma zip3_Forall3 {A B C} (P : C → Prop) (l1 : list A) (l2 : list B) (l3 : list C) :
  Forall P l3 → Forall (λ r, P r.2) (zip3 l1 l2 l3).
Proof.
  intros H3. revert l1 l2.
  induction H3 as [|z l3 Hz _ IH]; intros [|x l1] [|y l2]; simpl; try done.
  constructor; [done | apply IH].
Qed.

(** ** Similarity scores *)

Section Scores.
Local Open Scope Q_scope.

Lemma max_from_best best l : best <= Exact.max_from best l.
Proof.
    revert best. induction l as [|d l IH]; intros best; simpl; [apply Qle_refl|].
    destruct (Qlt_le_dec best d) as [Hlt|Hle]; [|apply IH].
    eapply Qle_trans; [apply Qlt_le_weak, Hlt | apply IH].
Qed.

Lemma max_from_ge best l d : d ∈ l → d <= Exact.max_from best l.
Proof.
    revert best. induction l as [|x l IH]; intros best Hin; [by apply elem_of_nil in Hin|].
    apply elem_of_cons in Hin as [-> | Hin]; simpl; [|by apply IH].
    destruct (Qlt_le_dec best x) as [Hlt|Hle]; [apply max_from_best|].
    eapply Qle_trans; [exact Hle | apply max_from_best].
Qed.

Lemma max_dist_ge distances d : d ∈ distances → d <= Exact.max_dist distances.
Proof.
    destruct distances as [|x l]; [by intros ?%elem_of_nil|].
    intros [-> | Hin]%elem_of_cons; simpl;
      [apply max_from_best | by apply max_from_ge].
Qed.

Lemma similarities_lookup distances i s :
    Exact.similarities distances !! i = Some s →
    ∃ d, distances !! i = Some d ∧
         s = if Qlt_le_dec 0 (Exact.max_dist distances)
             then 1 - d / Exact.max_dist distances else 1.
Proof.
    unfold Exact.similarities. rewrite list_lookup_fmap.
    destruct (distances !! i) as [d|]; simpl; [|done].
    intros [= <-]. by exists d.
Qed.

Lemma ratio_bounds d m : 0 <= d → d <= m → 0 < m → 0 <= d / m ∧ d / m <= 1.
Proof.
    intros Hd Hdm Hm. split.
    - apply Qle_shift_div_l; [done|]. by rewrite Qmult_0_l.
    - apply Qle_shift_div_r; [done|]. by rewrite Qmult_1_l.
Qed.

Lemma score_bounds distances i s :
    Forall (λ d, 0 <= d) distances →
    Exact.similarities distances !! i = Some s → 0 <= s ∧ s <= 1.
Proof.
    intros Hpos (d & Hd & ->)%similarities_lookup.
    destruct (Qlt_le_dec 0 (Exact.max_dist distances)) as [Hm|Hm]; [|done].
    assert (Hin : d ∈ distances) by (apply list_elem_of_lookup; eauto).
    destruct (ratio_bounds d (Exact.max_dist distances)) as [H0 H1];
      [by eapply Forall_forall in Hpos | by apply max_dist_ge | done |].
    set (x := d / Exact.max_dist distances) in *. split; lra.
Qed.

Lemma score_antitone distances i j di dj si sj :
    distances !! i = Some di → distances !! j = Some dj →
    Exact.similarities distances !! i = Some si →
    Exact.similarities distances !! j = Some sj →
    di <= dj → sj <= si.
Proof.
    intros Hi Hj (d1 & Hd1 & ->)%similarities_lookup
      (d2 & Hd2 & ->)%similarities_lookup Hle.
    rewrite Hi in Hd1. rewrite Hj in Hd2. injection Hd1 as <-. injection Hd2 as <-.
    destruct (Qlt_le_dec 0 (Exact.max_dist distances)) as [Hm|Hm]; [|apply Qle_refl].
    unfold Qminus. apply Qplus_le_r, Qopp_le_compat. unfold Qdiv.
    apply Qmult_le_compat_r; [done|]. by apply Qlt_le_weak, Qinv_lt_0_compat.
Qed.

Lemma score_degenerate distances :
    Exact.max_dist distances == 0 → Forall (λ s, s = 1) (Exact.similarities distances).
Proof.
    intros Hz. unfold Exact.similarities. apply Forall_fmap, Forall_true. intros d. simpl.
    destruct (Qlt_le_dec 0 (Exact.max_dist distances)) as [Hm|Hm]; [|done].
    rewrite Hz in Hm. by apply Qlt_irrefl in Hm.
Qed.

End Scores.

Lemma bind_ok {A B} (m : M A) (k : A → M B) st a st' :
  m st = (Ok a, st') → (m ≫= k) st = k a st'.
Proof. intros H. unfold mbind, M_bind. by rewrite H. Qed.

Lemma bind_raise {A B} (m : M A) (k : A → M B) st e st' :
  m st = (Raise e, st') → (m ≫= k) st = (Raise e, st').
Proof. intros H. unfold mbind, M_bind. by rewrite H. Qed.

Lemma zip3_nil_r {A B C} (l1 : list A) (l2 : list B) :
  zip3 l1 l2 (@nil C) = [].
Proof. by destruct l1, l2. Qed.

Lemma where_filter_named f :
  f ≠ "" → f ≠ "All Documents" →
  where_filter (Some f) = Some ("document_name", MStr f).
Proof.
  intros H1 H2. unfold where_filter.
  apply String.eqb_neq in H1 as ->. by apply String.eqb_neq in H2 as ->.
Qed.

(** The reference store honours equality filters. *)
Lemma insert_hit_elem h x l : x ∈ Reference.insert_hit h l → x = h ∨ x ∈ l.
Proof.
  induction l as [|h' l IH]; simpl.
  - intros ->%list_elem_of_singleton. by left.
  - destruct (Qlt_le_dec h.1 h'.1).
    + intros [->|?]%elem_of_cons; [by left | by right].
    + intros [->|Hx]%elem_of_cons; [right; by left|].
      destruct (IH Hx) as [->|?]; [by left | right; by right].
Qed.

Lemma sort_hits_elem x l : x ∈ Reference.sort_hits l → x ∈ l.
Proof.
  induction l as [|h l IH]; simpl; [done|].
  intros [->|?]%insert_hit_elem; [by left | right; by apply IH].
Qed.

Lemma reference_honors_filter : honors_filter Reference.env.
Proof.
  intros entries e k w r. simpl. unfold Reference.query. intros [= <-]. simpl.
  apply Forall_fmap, Forall_forall. intros [d x] Hx. simpl.
  unfold Reference.hits in Hx.
  apply elem_of_take in Hx as (i & Hx%list_elem_of_lookup_2 & _).
  apply sort_hits_elem in Hx.
  apply list_elem_of_fmap in Hx as (y & [= _ <-] & Hy).
  apply list_elem_of_filter in Hy as [Hm Hy].
  split; [done|]. apply list_elem_of_fmap. eauto.
Qed.

(** What [search] returns on the reference instance. *)
Lemma reference_search q k f :
  let r := Reference.answer Reference.entries
             [inject_Z (Z.of_nat (String.length q)); 1%Q] k (where_filter f) in
  search Reference.env q k f Reference.loaded =
    (Ok (zip3 (res_documents r) (similarities (res_distances r))
              (res_metadatas r)),
     log_request (EmbeddingRequest [q]) Reference.loaded).
Proof.
  intros r.
  apply (search_ok Reference.env q k f Reference.loaded collection_name
           Reference.entries [inject_Z (Z.of_nat (String.length q)); 1%Q] []);
    [done | apply lookup_singleton_eq | done..].
Qed.

(** *** Normalised scores *)

Section FloatScores.

Lemma zip3_length {A B C} (l1 : list A) (l2 : list B) (l3 : list C) n :
  length l1 = n → length l2 = n → length l3 = n →
  length (zip3 l1 l2 l3) = n.
Proof.
  revert l2 l3 n. induction l1 as [|a l1 IH]; intros [|b l2] [|c l3] n;
    simpl; try (intros; congruence).
  intros <- [= H2] [= H3]. f_equal. by apply IH.
Qed.

Lemma max_from_finite best qs :
  max_from (PyFloat.Finite best) (PyFloat.Finite <$> qs)
    = PyFloat.Finite (Exact.max_from best qs).
Proof.
  revert best. induction qs as [|d qs IH]; intros best; simpl; [done|].
  destruct (Qlt_le_dec best d); apply IH.
Qed.

Lemma max_dist_finite qs :
  max_dist (PyFloat.Finite <$> qs) = PyFloat.Finite (Exact.max_dist qs).
Proof. destruct qs as [|d qs]; simpl; [done | apply max_from_finite]. Qed.

Lemma Qeq_bool_pos m : (0 < m)%Q → Qeq_bool m 0 = false.
Proof.
  intros Hm. destruct (Qeq_bool m 0) eqn:Heq; [|done].
  apply Qeq_bool_iff in Heq. rewrite Heq in Hm. by apply Qlt_irrefl in Hm.
Qed.

Lemma similarities_finite qs :
  similarities (PyFloat.Finite <$> qs)
    = PyFloat.Finite <$> Exact.similarities qs.
Proof.
  unfold similarities, Exact.similarities. rewrite max_dist_finite.
  rewrite <- !list_fmap_compose. apply list_fmap_ext. intros i d _. simpl.
  destruct (Qlt_le_dec 0 (Exact.max_dist qs)) as [Hm|Hm]; [|done].
  by rewrite Qeq_bool_pos.
Qed.

Lemma finite_nonneg_list ds :
  Forall ScoreSpec.finite_nonneg ds →
  ∃ qs, ds = PyFloat.Finite <$> qs ∧ Forall (λ x, 0 <= x)%Q qs.
Proof.
  induction 1 as [|d ds (x & -> & Hx) _ (qs & -> & Hqs)].
  - by exists [].
  - exists (x :: qs). split; [done | by constructor].
Qed.

Lemma max_from_elem best l : Exact.max_from best l ∈ best :: l.
Proof.
  revert best. induction l as [|d l IH]; intros best; simpl;
    [apply list_elem_of_here|].
  destruct (Qlt_le_dec best d).
  - apply list_elem_of_further, IH.
  - specialize (IH best). apply elem_of_cons in IH as [-> | Hin];
      [apply list_elem_of_here | by do 2 apply list_elem_of_further].
Qed.

Lemma max_dist_elem qs : qs ≠ [] → Exact.max_dist qs ∈ qs.
Proof. destruct qs as [|d l]; [done|]. intros _. apply max_from_elem. Qed.

Lemma le_finite x y :
  PyFloat.le (PyFloat.Finite x) (PyFloat.Finite y) = true ↔ (x <= y)%Q.
Proof.
  simpl. destruct (Qlt_le_dec y x) as [Hlt|Hle]; split; try done.
  intros Hle. by apply Qlt_not_le in Hlt.
Qed.

Lemma lt_finite x y :
  PyFloat.lt (PyFloat.Finite x) (PyFloat.Finite y) = true ↔ (x < y)%Q.
Proof.
  simpl. destruct (Qlt_le_dec x y) as [Hlt|Hle]; split; try done.
  intros Hlt. by apply Qlt_not_le in Hlt.
Qed.

(** The maximum distance of a list of finite distances, whichever of its
    largest elements is taken. *)
Lemma largest_finite docs qs metas mx :
  ScoreSpec.largest
    (mkQueryResult docs (PyFloat.Finite <$> qs) metas) mx →
  ∃ qx, mx = PyFloat.Finite qx ∧ (qx == Exact.max_dist qs)%Q.
Proof.
  intros [Hin Hall]. simpl in *.
  apply list_elem_of_fmap in Hin as (qx & -> & Hin).
  exists qx. split; [done|].
  assert (Hne : qs ≠ []) by (intros ->; by apply elem_of_nil in Hin).
  apply Qle_antisym; [by apply max_dist_ge|].
  apply le_finite.
  eapply Forall_forall in Hall; [exact Hall|].
  apply list_elem_of_fmap. exists (Exact.max_dist qs).
  split; [done | by apply max_dist_elem].
Qed.

(** A result of [search] over finite distances. *)
Lemma finite_result (docs : list string) qs
    (metas : list (option (gmap string MetaVal))) i c s m :
  zip3 docs (similarities (PyFloat.Finite <$> qs)) metas !! i
    = Some (c, s, m) →
  ∃ x, s = PyFloat.Finite x ∧ Exact.similarities qs !! i = Some x ∧
       docs !! i = Some c ∧ metas !! i = Some m.
Proof.
  intros (Hc & Hs & Hm)%zip3_lookup.
  rewrite similarities_finite, list_lookup_fmap in Hs.
  destruct (Exact.similarities qs !! i) as [x|]; [|done].
  injection Hs as <-. by exists x.
Qed.

End FloatScores.

(** C1, as stated, fails: a store that answers with the distances 1 and
    inf, both non-negative, makes [search] return the scores 1 and nan
    (inf / inf is nan), and nan does not lie in [0, 1]. *)
Lemma search_scores_nan_for_infinite_distance :
  let res := [("alpha", PyFloat.Finite 1, Some ∅);
              ("beta", PyFloat.NaN, Some ∅)] in
  res_distances Reference.far_answer ≠ [] ∧
  Forall (λ d, PyFloat.le (PyFloat.Finite 0) d = true)
         (res_distances Reference.far_answer) ∧
  search Reference.env_far "abcd" 2 None Reference.loaded
    = (Ok res, log_request (EmbeddingRequest ["abcd"]) Reference.loaded) ∧
  ¬ ScoreSpec.bounded res.
Proof.
  intros res. split; [done|]. split; [by repeat constructor|]. split.
  - rewrite (search_ok Reference.env_far "abcd" 2 None Reference.loaded
               collection_name Reference.entries [4; 1]%Q []
               Reference.far_answer);
      [|done | apply lookup_singleton_eq | done..].
    f_equal.
  - intros Hb. by destruct (Hb 1%nat "beta" PyFloat.NaN (Some ∅) eq_refl).
Qed.

(** C1, amended: for every query for which the store answers with one
    document, distance and metadata per hit, at least one hit, and raw
    distances that are finite and non-negative, [search] returns one
    result per hit, the i-th result being the i-th hit of the store (store
    order, not re-sorted); the score of a hit at distance d is
    1 - d / max when the maximum distance is positive and exactly 1
    otherwise; every score lies in [0, 1]; and a result with a smaller raw
    distance never has a smaller score, so the smallest distance has the
    highest score.  Finite values are exact here: rounding is not
    modelled. *)
Theorem search_scores_normalized (env : Env) (q : string) (k : Z)
    (f : option string) (st : State) (h : string) (entries : list Entry)
    (v : Embedding) (vs : list Embedding) (r : QueryResult) :
  collection st = Some h → chroma st !! h = Some entries →
  embeddings_create env [q] = inr (v :: vs) →
  store_query env entries v k (where_filter f) = inr r →
  length (res_documents r) = length (res_distances r) →
  length (res_metadatas r) = length (res_distances r) →
  res_distances r ≠ [] →
  Forall ScoreSpec.finite_nonneg (res_distances r) →
  ∃ res,
    search env q k f st = (Ok res, log_request (EmbeddingRequest [q]) st) ∧
    res ≠ [] ∧
    ScoreSpec.store_order r res ∧ ScoreSpec.bounded res ∧
    ScoreSpec.closest_scores_highest r res ∧
    ScoreSpec.normalized r res ∧
    ScoreSpec.all_one_when_max_zero r res.
Proof.
  intros Hc Hs He Hq Hld Hlm Hne (qs & Hds & Hpos)%finite_nonneg_list.
  eexists. split; [by eapply search_ok|].
  destruct r as [docs ds metas]. simpl in *. subst ds.
  assert (Hlen : length (zip3 docs (similarities (PyFloat.Finite <$> qs)) metas)
                 = length (PyFloat.Finite <$> qs)).
  { apply zip3_length; [done | | done].
    unfold similarities. by rewrite length_fmap. }
  split; [|split; [|split; [|split; [|split]]]].
  - intros Hnil. rewrite Hnil in Hlen. simpl in Hlen.
    destruct qs; [done | discriminate Hlen].
  - split; [done|]. by intros i c s m (x & _ & _ & ? & ?)%finite_result.
  - intros i c s m (x & -> & Hx & _)%finite_result.
    apply score_bounds in Hx as [H0 H1]; [|done].
    split; by apply le_finite.
  - intros i j ci si mi cj sj mj di dj
      (xi & -> & Hxi & _)%finite_result (xj & -> & Hxj & _)%finite_result.
    simpl. rewrite !list_lookup_fmap.
    destruct (qs !! i) as [qi|] eqn:Hqi; [|done].
    destruct (qs !! j) as [qj|] eqn:Hqj; [|done].
    simpl. intros [= <-] [= <-] Hle%le_finite.
    apply le_finite. by eapply (score_antitone qs i j).
  - intros mx (qx & -> & Hqx)%largest_finite i c s m d
      (x & -> & Hx & _)%finite_result.
    simpl. rewrite list_lookup_fmap.
    destruct (qs !! i) as [qi|] eqn:Hqi; [|done]. simpl. intros [= <-].
    apply similarities_lookup in Hx as (d & Hd & ->).
    rewrite Hqi in Hd. injection Hd as <-.
    destruct (Qlt_le_dec 0 qx) as [Hpx|Hpx];
      destruct (Qlt_le_dec 0 (Exact.max_dist qs)) as [Hm|Hm].
    + unfold PyFloat.div. rewrite (Qeq_bool_pos qx) by done.
      apply Qeq_bool_iff. by rewrite Hqx.
    + rewrite Hqx in Hpx. by apply Qlt_not_le in Hpx.
    + rewrite <- Hqx in Hm. by apply Qlt_not_le in Hm.
    + done.
  - intros mx (qx & -> & Hqx)%largest_finite Hz i c s m
      (x & -> & Hx & _)%finite_result.
    simpl in Hz. apply Qeq_bool_iff in Hz. rewrite Hz in Hqx.
    eapply Forall_lookup_1 in Hx; [|by apply score_degenerate].
    simpl in Hx. by rewrite Hx.
Qed.

Lemma search_scores_normalized_witness :
  let r := Reference.answer Reference.entries [3; 1]%Q 3 None in
  res_distances r = PyFloat.Finite <$> [0; 4; 36]%Q ∧
  ∃ res,
    search Reference.env "abc" 3 None Reference.loaded
      = (Ok res, log_request (EmbeddingRequest ["abc"]) Reference.loaded) ∧
    res ≠ [] ∧
    ScoreSpec.store_order r res ∧ ScoreSpec.bounded res ∧
    ScoreSpec.closest_scores_highest r res ∧
    ScoreSpec.normalized r res ∧
    ScoreSpec.all_one_when_max_zero r res.
Proof.
  intros r.
  assert (Hds : res_distances r = PyFloat.Finite <$> [0; 4; 36]%Q)
    by (vm_compute; reflexivity).
  split; [exact Hds|].
  apply (search_scores_normalized Reference.env "abc" 3 None Reference.loaded
           collection_name Reference.entries [3; 1]%Q [] r).
  - reflexivity.
  - apply lookup_singleton_eq.
  - reflexivity.
  - reflexivity.
  - rewrite Hds. vm_compute. reflexivity.
  - rewrite Hds. vm_compute. reflexivity.
  - rewrite Hds. discriminate.
  - rewrite Hds. repeat constructor; eexists; (split; [reflexivity|]);
      discriminate.
Defined.

(** *** Document filter *)

Lemma matches_named f m :
  matches (Some ("document_name", MStr f)) m = true →
  ∃ meta, m = Some meta ∧ meta !! "document_name" = Some (MStr f).
Proof.
  destruct m as [meta|]; simpl; [|done].
  intros Hm%bool_decide_eq_true. eauto.
Qed.

(** C4: when the store honours equality filters, every result [search]
    returns for a [document_filter] that is a non-empty string other than
    "All Documents" carries a metadata whose [document_name] is exactly
    that string; so it is for "Directive 017". *)
Theorem search_honors_document_filter (env : Env) (q : string) (k : Z)
    (f : string) (st st' : State)
    (res : list (string * PyFloat.float * option (gmap string MetaVal))) :
  honors_filter env → f ≠ "" → f ≠ "All Documents" →
  search env q k (Some f) st = (Ok res, st') →
  Forall (λ hit, ∃ meta, hit.2 = Some meta ∧
                         meta !! "document_name" = Some (MStr f)) res.
Proof.
  intros Hstore Hne Hsent
    (h & entries & v & vs & r & _ & _ & _ & Hq & -> & _)%search_ok_inv.
  rewrite where_filter_named in Hq by done.
  apply (zip3_Forall3 (λ m, ∃ meta, m = Some meta ∧
                              meta !! "document_name" = Some (MStr f))).
  eapply Forall_impl; [by eapply Hstore|].
  intros m [Hm _]. by apply matches_named.
Qed.

Lemma search_honors_document_filter_witness :
  let r := Reference.answer Reference.entries [4; 1]%Q 5
             (Some ("document_name", MStr "Directive 017")) in
  Forall (λ hit, ∃ meta, hit.2 = Some meta ∧
                         meta !! "document_name" = Some (MStr "Directive 017"))
         (zip3 (res_documents r) (similarities (res_distances r))
               (res_metadatas r)).
Proof.
  apply (search_honors_document_filter Reference.env "abcd" 5 "Directive 017"
           Reference.loaded
           (log_request (EmbeddingRequest ["abcd"]) Reference.loaded)).
  - apply reference_honors_filter.
  - discriminate.
  - discriminate.
  - apply (reference_search "abcd" 5 (Some "Directive 017")).
Defined.

(** *** A filter that matches nothing *)

Section GenerateFacts.
Variable env : Env.

Lemma generate_response_empty q k f st st1 a rest :
    search env q k f st = (Ok [], st1) →
    chat_create env system_message (user_message "" q) = inr (a :: rest) →
    generate_response env q k f st =
      (Ok (mkResponse a [] ""),
       log_request (ChatRequest system_message (user_message "" q)) st1).
Proof.
    intros Hsearch Hchat. unfold generate_response.
    rewrite (bind_ok _ _ _ _ _ Hsearch). simpl. unfold_monad. simpl.
    by rewrite Hchat.
Qed.

Lemma generate_response_raise q k f st e st1 :
    search env q k f st = (Raise e, st1) →
    generate_response env q k f st = (Raise e, st1).
Proof. intros Hsearch. unfold generate_response. by apply bind_raise. Qed.

Lemma search_provider_error q k f st msg :
    collection st ≠ None → embeddings_create env [q] = inl msg →
    search env q k f st =
      (Raise (ProviderError msg), log_request (EmbeddingRequest [q]) st).
Proof.
    intros Hc He. unfold search. unfold_monad.
    destruct (collection st); [|done]. simpl. by rewrite He.
Qed.

End GenerateFacts.

(** C6: when the store honours equality filters and answers the query, a
    [document_filter] that no stored entry matches makes [search] return
    the empty list, and [generate_response] then still sends the chat
    request, built from the empty context, and returns the provider's text
    as answer with an empty source list and the empty string as context. *)
Theorem no_match_still_answers (env : Env) (q : string) (k : Z) (f : string)
    (st : State) (h : string) (entries : list Entry) (v : Embedding)
    (vs : list Embedding) (r : QueryResult) (a : string) (rest : list string) :
  honors_filter env → f ≠ "" → f ≠ "All Documents" →
  collection st = Some h → chroma st !! h = Some entries →
  Forall (λ e, matches (Some ("document_name", MStr f)) (entry_metadata e)
               = false) entries →
  embeddings_create env [q] = inr (v :: vs) →
  store_query env entries v k (Some ("document_name", MStr f)) = inr r →
  chat_create env system_message (user_message "" q) = inr (a :: rest) →
  search env q k (Some f) st
    = (Ok [], log_request (EmbeddingRequest [q]) st) ∧
  generate_response env q k (Some f) st
    = (Ok {| answer := a; sources := []; context := "" |},
       log_request (ChatRequest system_message (user_message "" q))
         (log_request (EmbeddingRequest [q]) st)).
Proof.
  intros Hstore Hne Hsent Hc Hs Hnone He Hq Hchat.
  assert (Hmetas : res_metadatas r = []).
  { pose proof (Hstore _ _ _ _ _ Hq) as Hall.
    destruct (res_metadatas r) as [|m ms]; [done|].
    apply Forall_cons in Hall as [[Hm Hin] _].
    apply list_elem_of_fmap in Hin as (e & -> & He').
    eapply Forall_forall in Hnone; [|done]. congruence. }
  assert (Hsearch : search env q k (Some f) st
                    = (Ok [], log_request (EmbeddingRequest [q]) st)).
  { erewrite search_ok; [|done..|by rewrite where_filter_named].
    by rewrite Hmetas, zip3_nil_r. }
  split; [done|]. by apply generate_response_empty with rest.
Qed.

Lemma no_match_still_answers_witness :
  search Reference.env "abcd" 2 (Some "Nonexistent Doc") Reference.loaded
    = (Ok [], log_request (EmbeddingRequest ["abcd"]) Reference.loaded) ∧
  generate_response Reference.env "abcd" 2 (Some "Nonexistent Doc")
      Reference.loaded
    = (Ok {| answer := "No relevant information was found.";
             sources := []; context := "" |},
       log_request (ChatRequest system_message (user_message "" "abcd"))
         (log_request (EmbeddingRequest ["abcd"]) Reference.loaded)).
Proof.
  apply (no_match_still_answers Reference.env "abcd" 2 "Nonexistent Doc"
           Reference.loaded collection_name Reference.entries [4; 1]%Q []
           (Reference.answer Reference.entries [4; 1]%Q 2
              (Some ("document_name", MStr "Nonexistent Doc")))
           "No relevant information was found." []).
  - apply reference_honors_filter.
  - discriminate.
  - discriminate.
  - reflexivity.
  - apply lookup_singleton_eq.
  - repeat constructor; vm_compute; reflexivity.
  - reflexivity.
  - reflexivity.
  - reflexivity.
Defined.

(** *** No collection loaded *)

(** C7: with no collection loaded, [search] and [generate_response] raise
    [ValueError("Collection not loaded")] and leave the state, the log of
    provider requests included, as it was: no provider has been contacted.
    A failure of the embedding provider, which can only occur once a
    collection is loaded, surfaces as the provider's own exception, which
    is not that [ValueError]. *)
Theorem not_loaded_raises_before_provider (env : Env) (q : string) (k : Z)
    (f : option string) (st : State) :
  collection st = None →
  search env q k f st = (Raise (ValueError "Collection not loaded"), st) ∧
  generate_response env q k f st
    = (Raise (ValueError "Collection not loaded"), st) ∧
  (∀ st1 msg, collection st1 ≠ None → embeddings_create env [q] = inl msg →
     fst (search env q k f st1) = Raise (ProviderError msg) ∧
     fst (generate_response env q k f st1) = Raise (ProviderError msg) ∧
     ProviderError msg ≠ ValueError "Collection not loaded").
Proof.
  intros Hc. split; [by apply search_not_loaded|]. split.
  - by apply generate_response_raise, search_not_loaded.
  - intros st1 msg Hc1 He.
    pose proof (search_provider_error env q k f st1 msg Hc1 He) as Hs.
    split; [by rewrite Hs|]. split; [|done].
    by rewrite (generate_response_raise _ _ _ _ _ _ _ Hs).
Qed.

Lemma not_loaded_raises_before_provider_witness :
  search Reference.env "abcd" 5 None Reference.fresh
    = (Raise (ValueError "Collection not loaded"), Reference.fresh) ∧
  generate_response Reference.env "abcd" 5 None Reference.fresh
    = (Raise (ValueError "Collection not loaded"), Reference.fresh).
Proof.
  destruct (not_loaded_raises_before_provider Reference.env "abcd" 5 None
              Reference.fresh) as (Hs & Hg & _); [reflexivity|].
  by split.
Defined.

(** *** Falsy filters *)

(** C10: [None] and the empty string, like "All Documents", make [search]
    hand no [where] clause to the store, so that [search] and
    [generate_response] behave exactly as they do for "All Documents". *)
Theorem falsy_filter_is_no_filter (env : Env) (q : string) (k : Z) (st : State) :
  where_filter None = None ∧ where_filter (Some "") = None ∧
  where_filter (Some "All Documents") = None ∧
  search env q k None st = search env q k (Some "All Documents") st ∧
  search env q k (Some "") st = search env q k (Some "All Documents") st ∧
  generate_response env q k None st
    = generate_response env q k (Some "All Documents") st ∧
  generate_response env q k (Some "") st
    = generate_response env q k (Some "All Documents") st.
Proof.
  assert (H1 : search env q k None st = search env q k (Some "All Documents") st)
    by done.
  assert (H2 : search env q k (Some "") st
               = search env q k (Some "All Documents") st) by done.
  assert (F1 : search env q k None = search env q k (Some "All Documents"))
    by done.
  assert (F2 : search env q k (Some "") = search env q k (Some "All Documents"))
    by done.
  repeat (split; [done|]).
  unfold generate_response. by rewrite ?F1, ?F2.
Qed.

(** ** Index build *)

Section BuildFacts.
Variable env : Env.

Lemma add_document_store path name type st r st' :
    add_document env path name type st = (r, st') →
    chroma st' = chroma st ∧ collection st' = collection st.
Proof.
    unfold add_document, extract_text_from_pdf. unfold_monad.
    destruct (pdf_pages env path) as [msg|pages]; simpl; [by intros [= _ <-]|].
    destruct (chunk_text _ _ 500 100); simpl; by intros [= _ <-].
Qed.

(** With the sizes [add_document] uses, 500 and 100, chunking returns. *)
Lemma add_document_returns path name type st :
  fst (add_document env path name type st) ≠ Diverge.
Proof.
  unfold add_document, extract_text_from_pdf. unfold_monad.
  destruct (pdf_pages env path) as [msg|pages]; simpl; [done|].
  rewrite progress_gives_result; [done|].
  intros ls. apply step_progress; lia.
Qed.

Lemma collect_store docs all_chunks all_metadatas st r st' :
    collect env docs all_chunks all_metadatas st = (r, st') →
    chroma st' = chroma st ∧ collection st' = collection st.
Proof.
    revert all_chunks all_metadatas st.
    induction docs as [|doc docs IH]; intros ac am st; simpl.
    - by intros [= _ <-].
    - unfold mbind, M_bind.
      destruct (add_document env _ _ _ st) as [[[cs id]|e|] st1] eqn:Hadd;
        apply add_document_store in Hadd as [Hch Hco].
      + intros [Hch' Hco']%IH. split; congruence.
      + by intros [= _ <-].
      + by intros [= _ <-].
Qed.

Lemma embed_batches_store bs st r st' :
    embed_batches env bs st = (r, st') →
    chroma st' = chroma st ∧ collection st' = collection st.
Proof.
    revert st r st'. induction bs as [|b bs IH]; intros st r st'; simpl.
    - by intros [= _ <-].
    - unfold_monad. simpl.
      destruct (embeddings_create env b) as [msg|es]; simpl; [by intros [= _ <-]|].
      destruct (embed_batches env bs (log_request (EmbeddingRequest b) st))
        as [[rest|e|] st1] eqn:Hrest;
        apply IH in Hrest as [Hch Hco]; by intros [= _ <-].
Qed.


End BuildFacts.




(** ** Index reload *)

Section LoadFacts.
Import Registry RegistrySpec.
Variable env : Env.

Lemma set_documents_id st : set_documents (documents st) st = st.
Proof. by destruct st. Qed.

Lemma set_documents_twice d1 d2 st :
    set_documents d2 (set_documents d1 st) = set_documents d2 st.
Proof. done. Qed.

Lemma register_doc_ok meta st st' :
    register_doc meta st = (Ok tt, st') →
    st' = set_documents (register (documents st) meta) st.
Proof.
    unfold register_doc, register, meta_get. unfold_monad.
    destruct meta as [m|]; simpl; [|done].
    destruct (m !! "document_id") as [id|]; simpl;
      [|intros [= <-]; by rewrite set_documents_id].
    destruct (meta_truthy id && bool_decide (documents st !! id = None));
      simpl; intros [= <-]; [done | by rewrite set_documents_id].
Qed.

Lemma count_chunk_ok meta st st' :
    count_chunk meta st = (Ok tt, st') →
    st' = set_documents (count (documents st) meta) st.
Proof.
    unfold count_chunk, count, meta_get. unfold_monad.
    destruct meta as [m|]; simpl; [|done].
    destruct (m !! "document_id") as [id|]; simpl;
      [|intros [= <-]; by rewrite set_documents_id].
    destruct (documents st !! id); simpl; intros [= <-];
      [done | by rewrite set_documents_id].
Qed.

Lemma for_each_ok (body : option (gmap string MetaVal) → M unit)
      (f : gmap MetaVal DocInfo → option (gmap string MetaVal) →
           gmap MetaVal DocInfo) metas st st' :
    (∀ meta st st', body meta st = (Ok tt, st') →
                    st' = set_documents (f (documents st) meta) st) →
    for_each metas body st = (Ok tt, st') →
    st' = set_documents (foldl f (documents st) metas) st.
Proof.
    intros Hbody. revert st.
    induction metas as [|meta metas IH]; intros st; simpl.
    - intros [= <-]. by rewrite set_documents_id.
    - unfold mbind, M_bind.
      destruct (body meta st) as [[[]|e|] st1] eqn:Hb; [|done..].
      apply Hbody in Hb as ->. intros ->%IH. done.
Qed.

  (** What a successful [load_index] has done. *)
Lemma load_index_ok_inv st st' :
    load_index st = (Ok tt, st') →
    ∃ entries,
      chroma st !! collection_name = Some entries ∧
      st' = set_documents
              (foldl count
                 (foldl register (documents st) (sample_of entries))
                 (sample_of entries))
              (set_collection (Some collection_name) st).
Proof.
    cbv beta iota zeta delta
      [load_index try_except get_collection collection_get_metadatas
       collection_entries mbind M_bind mret M_ret get_state modify raise].
    destruct (chroma st !! collection_name) as [entries|] eqn:Hs; simpl; [|done].
    rewrite Hs. simpl. rewrite Hs.
    change (Z.to_nat 1000) with 1000%nat. fold (sample_of entries).
    set (st0 := set_collection (Some collection_name) st).
    intros Hrun. exists entries. split; [done|].
    destruct (sample_of entries) as [|meta metas] eqn:Hsample.
    - injection Hrun as <-. subst st0. by destruct st.
    - rewrite <- Hsample in *. clear Hsample.
      destruct (for_each (sample_of entries) register_doc st0)
        as [[[]|e|] st1] eqn:H1; [|done..].
      destruct (for_each (sample_of entries) count_chunk st1)
        as [[[]|e|] st2] eqn:H2; [|done..].
      injection Hrun as <-.
      apply (for_each_ok _ register) in H1 as ->; [|apply register_doc_ok].
      apply (for_each_ok _ count) in H2 as ->; [|apply count_chunk_ok].
      done.
Qed.

  (** The first loop: existing records stay, and an unseen truthy
      identifier gets the record of the first metadata bearing it. *)
Lemma register_all_lookup metas reg id :
    foldl register reg metas !! id =
      match reg !! id with
      | Some info => Some info
      | None =>
          if meta_truthy id then new_record <$> first_with_id id metas
          else None
      end.
Proof.
    revert reg. induction metas as [|meta metas IH]; intros reg; simpl.
    - destruct (reg !! id); [done|]. by destruct (meta_truthy id).
    - rewrite IH. unfold register, doc_id_of. clear IH.
      destruct meta as [m|]; simpl; [|try case_decide; done].
      destruct (m !! "document_id") as [id'|] eqn:Hid; simpl; [|try case_decide; done].
      destruct (decide (id' = id)) as [->|Hne].
      + rewrite decide_True by done.
        destruct (reg !! id) as [info|] eqn:Hreg.
        * rewrite bool_decide_eq_false_2 by done.
          rewrite andb_false_r. by rewrite Hreg.
        * rewrite bool_decide_eq_true_2 by done. rewrite andb_true_r.
          destruct (meta_truthy id); [by rewrite lookup_insert_eq|].
          by rewrite Hreg.
      + rewrite decide_False by congruence.
        destruct (meta_truthy id' && bool_decide (reg !! id' = None)); [|done].
        by rewrite lookup_insert_ne.
Qed.

  (** The second loop: no record is created, and each record gains one
      chunk per metadata bearing its identifier. *)
Lemma count_all_lookup metas reg id :
    foldl count reg metas !! id =
      add_chunks (count_with_id id metas) <$> reg !! id.
Proof.
    revert reg. induction metas as [|meta metas IH]; intros reg.
    - simpl. destruct (reg !! id) as [[]|]; simpl; [|done].
      unfold add_chunks, count_with_id. simpl. by rewrite Z.add_0_r.
    - simpl. rewrite IH. clear IH.
      unfold count_with_id. rewrite filter_cons.
      unfold count, doc_id_of.
      destruct meta as [m|]; simpl; [|try case_decide; done].
      destruct (m !! "document_id") as [id'|] eqn:Hid; simpl; [|try case_decide; done].
      destruct (decide (id' = id)) as [->|Hne].
      + rewrite decide_True by done.
        destruct (reg !! id) as [info|] eqn:Hreg.
        * rewrite lookup_insert_eq. simpl. unfold add_chunks, add_chunk. simpl.
          f_equal. f_equal. lia.
        * by rewrite Hreg.
      + rewrite decide_False by congruence.
        destruct (reg !! id') as [info'|]; [|done].
        by rewrite lookup_insert_ne.
Qed.

Lemma count_sample_le id (entries : list Entry) :
    count_with_id id (sample_of entries)
      ≤ count_with_id id (entry_metadata <$> entries).
Proof.
    unfold count_with_id, sample_of.
    rewrite <- (take_drop 1000 entries) at 2.
    rewrite fmap_app, filter_app, length_app. lia.
Qed.

End LoadFacts.

(** C8, as stated, fails in three ways: an entry whose [document_id] is
    the empty string is sampled but gets no record; on an instance whose
    registry is already filled (here by a first [load_index]) the chunk
    counts are added to those already there, four for the two sampled
    chunks of "directive_017"; and in a collection of 1001 entries the
    count of a document whose only chunk is among the first 1000 is its
    true total, not an undercount. *)
Lemma load_index_registry_differs :
  (fst (load_index Reference.fresh_anonymous) = Ok tt ∧
   documents (snd (load_index Reference.fresh_anonymous)) !! MStr "" = None ∧
   RegistrySpec.expected_record
     (RegistrySpec.sample_of [Reference.anonymous_entry]) (MStr "")
     = Some (mkDocInfo (MStr "Unknown") (MStr "Unknown") (MStr "") 1)) ∧
  (let st1 := snd (load_index Reference.fresh) in
   fst (load_index st1) = Ok tt ∧
   doc_chunks <$> documents (snd (load_index st1)) !! MStr "directive_017"
     = Some 4 ∧
   doc_chunks <$> RegistrySpec.expected_record
                    (RegistrySpec.sample_of Reference.entries)
                    (MStr "directive_017") = Some 2) ∧
  (length Reference.large_entries = 1001%nat ∧
   fst (load_index Reference.fresh_large) = Ok tt ∧
   doc_chunks <$> documents (snd (load_index Reference.fresh_large)) !! MStr "a"
     = Some 1 ∧
   RegistrySpec.count_with_id (MStr "a")
     (entry_metadata <$> Reference.large_entries) = 1).
Proof.
  split; [|split]; repeat split; vm_compute; reflexivity.
Qed.

(** C8, amended: after [load_index] succeeds on an instance whose registry
    was empty, the loaded handle is the collection, the sample is the
    metadata of the first min(size, 1000) entries, and the registry holds
    exactly one record for every truthy (non-empty) [document_id] among the
    sampled entries and no other record; its name, type and path come from
    the first sampled entry bearing that id ('Unknown', 'Unknown' and ''
    when absent) and its chunk count is the number of sampled entries
    bearing that id, which is at most the number of entries of the whole
    collection bearing it. *)
Theorem load_index_rebuilds_registry (st st' : State) :
  load_index st = (Ok tt, st') → documents st = ∅ →
  ∃ entries,
    chroma st !! collection_name = Some entries ∧
    collection st' = Some collection_name ∧
    length (RegistrySpec.sample_of entries)
      = (length entries `min` 1000)%nat ∧
    (∀ id, documents st' !! id =
       if meta_truthy id
       then RegistrySpec.expected_record (RegistrySpec.sample_of entries) id
       else None) ∧
    (∀ id info, documents st' !! id = Some info →
       doc_chunks info
         = RegistrySpec.count_with_id id (RegistrySpec.sample_of entries) ∧
       doc_chunks info
         ≤ RegistrySpec.count_with_id id (entry_metadata <$> entries)).
Proof.
  intros (entries & Hs & ->)%load_index_ok_inv Hempty.
  exists entries. split; [done|]. split; [done|].
  split. { unfold RegistrySpec.sample_of. rewrite length_fmap, length_take. lia. }
  assert (Hlookup : ∀ id,
    foldl Registry.count
      (foldl Registry.register (documents st) (RegistrySpec.sample_of entries))
      (RegistrySpec.sample_of entries) !! id =
    if meta_truthy id
    then RegistrySpec.expected_record (RegistrySpec.sample_of entries) id
    else None).
  { intros id. rewrite count_all_lookup, register_all_lookup, Hempty, lookup_empty.
    unfold RegistrySpec.expected_record.
    destruct (meta_truthy id); [|done].
    destruct (RegistrySpec.first_with_id id _) as [m|]; [|done]. done. }
  split; [exact Hlookup|].
  intros id info. simpl. rewrite Hlookup.
  destruct (meta_truthy id); [|done].
  unfold RegistrySpec.expected_record.
  destruct (RegistrySpec.first_with_id id _) as [m|]; [|done].
  simpl. intros [= <-]. simpl. split; [done | apply count_sample_le].
Qed.

Lemma load_index_rebuilds_registry_witness :
  ∃ entries,
    chroma Reference.fresh !! collection_name = Some entries ∧
    collection (snd (load_index Reference.fresh)) = Some collection_name ∧
    length (RegistrySpec.sample_of entries)
      = (length entries `min` 1000)%nat ∧
    (∀ id, documents (snd (load_index Reference.fresh)) !! id =
       if meta_truthy id
       then RegistrySpec.expected_record (RegistrySpec.sample_of entries) id
       else None) ∧
    (∀ id info, documents (snd (load_index Reference.fresh)) !! id = Some info →
       doc_chunks info
         = RegistrySpec.count_with_id id (RegistrySpec.sample_of entries) ∧
       doc_chunks info
         ≤ RegistrySpec.count_with_id id (entry_metadata <$> entries)).
Proof.
  apply (load_index_rebuilds_registry Reference.fresh
           (snd (load_index Reference.fresh))); [|reflexivity].
  assert (Hok : fst (load_index Reference.fresh) = Ok tt)
    by (vm_compute; reflexivity).
  destruct (load_index Reference.fresh) as [out st']. simpl in *. by subst out.
Defined.

(** * Further properties *)

(** ** Chunker: sizes, provenance and coverage of the chunks *)

Section ChunkShape.
Import ChunkerSpec.

Lemma lstrip_suffix s : ∃ pre, s = pre ++ lstrip s.
Proof.
  induction s as [|c s [pre IH]]; simpl; [by exists []|].
  destruct (isspace c); [|by exists []].
  exists (c :: pre). simpl. by f_equal.
Qed.

Lemma rstrip_prefix s : ∃ post, s = rstrip s ++ post.
Proof.
  unfold rstrip. destruct (lstrip_suffix (rev s)) as [pre Hpre].
  exists (rev pre). rewrite <- rev_app_distr, <- Hpre. by rewrite rev_involutive.
Qed.

Lemma strip_infix s : ∃ pre post, s = pre ++ strip s ++ post.
Proof.
  unfold strip. destruct (lstrip_suffix s) as [pre Hpre].
  destruct (rstrip_prefix (lstrip s)) as [post Hpost].
  exists pre, post. by rewrite <- Hpost.
Qed.

Lemma slice_infix s lo hi : ∃ pre post, s = pre ++ slice s lo hi ++ post.
Proof.
  unfold slice.
  set (a := Z.to_nat (adjust_index _ lo)). set (n := Z.to_nat _).
  exists (take a s), (drop n (drop a s)).
  by rewrite take_drop, take_drop.
Qed.

Lemma infix_trans (a b c : pystr) :
  (∃ pre post, b = pre ++ a ++ post) → (∃ pre post, c = pre ++ b ++ post) →
  ∃ pre post, c = pre ++ a ++ post.
Proof.
  intros (p1 & q1 & ->) (p2 & q2 & ->).
  exists (p2 ++ p1), (q1 ++ q2). by rewrite <- !(assoc_L (++)).
Qed.

Lemma infix_length (a b : pystr) :
  (∃ pre post, b = pre ++ a ++ post) → (length a ≤ length b)%nat.
Proof. intros (p & q & ->). rewrite !length_app. lia. Qed.

Lemma slice_window_length s lo S :
  0 ≤ S → (length (slice s lo (lo + S)) ≤ Z.to_nat S)%nat.
Proof.
  intros HS. unfold slice. rewrite length_take.
  etransitivity; [apply Nat.le_min_l|].
  unfold adjust_index.
  destruct (Z.ltb_spec lo 0), (Z.ltb_spec (lo + S) 0); lia.
Qed.

Variables (text : pystr) (chunk_size overlap : Z).

Lemma cut_infix s :
  ∃ pre post, text = pre ++ fst (cut text chunk_size s) ++ post.
Proof.
  unfold cut.
  repeat match goal with |- context [if ?b then _ else _] => destruct b end;
    simpl; unfold slice_to;
    repeat (first [apply slice_infix | eapply infix_trans; [apply slice_infix|]]).
Qed.

Lemma cut_length s :
  0 ≤ chunk_size →
  (length (fst (cut text chunk_size s)) ≤ Z.to_nat chunk_size)%nat.
Proof.
  intros HS. unfold cut.
  repeat match goal with |- context [if ?b then _ else _] => destruct b end;
    simpl; try by apply slice_window_length.
  etransitivity; [apply infix_length, slice_infix|].
  by apply slice_window_length.
Qed.

Lemma iterate_chunks_Forall (P : pystr → Prop) n st :
  (∀ s, strip (fst (cut text chunk_size s)) ≠ [] →
        P (strip (fst (cut text chunk_size s)))) →
  Forall P (chunks st) →
  Forall P (chunks (iterate n text chunk_size overlap st)).
Proof.
  intros Hcut. revert st. induction n as [|n IH]; intros st Hst; simpl; [done|].
  destruct (running text st); [|done].
  apply IH. rewrite chunk_step_chunks, emit_spec. case_decide; [done|].
  apply Forall_app. split; [done|]. apply Forall_singleton. by apply Hcut.
Qed.

Lemma chunk_text_Forall (P : pystr → Prop) fuel cs :
  (∀ s, strip (fst (cut text chunk_size s)) ≠ [] →
        P (strip (fst (cut text chunk_size s)))) →
  chunk_text fuel text chunk_size overlap = Some cs → Forall P cs.
Proof.
  intros Hcut. unfold chunk_text. rewrite chunk_loop_iterate. simpl.
  destruct (running _ _); [done|]. intros [= <-].
  by apply iterate_chunks_Forall.
Qed.

End ChunkShape.

(** X1: for a chunk size S >= 0 and any overlap, no chunk [chunk_text]
    returns is longer than S characters. *)
Theorem chunk_length_at_most_size (text : pystr) (chunk_size overlap : Z)
    (fuel : nat) (cs : list pystr) :
  0 ≤ chunk_size →
  chunk_text fuel text chunk_size overlap = Some cs →
  Forall (λ c, (length c ≤ Z.to_nat chunk_size)%nat) cs.
Proof.
  intros HS. apply chunk_text_Forall. intros s _.
  etransitivity; [apply infix_length, strip_infix | by apply cut_length].
Qed.

Lemma chunk_length_at_most_size_witness :
  Forall (λ c, (length c ≤ Z.to_nat 20)%nat)
    (list_ascii_of_string <$>
       ["Hello world."; "orld. This is a test"; "test! And more text";
        "text here"]%string).
Proof.
  apply (chunk_length_at_most_size sample_text 20 5 47); [lia|].
  vm_compute. reflexivity.
Defined.

(** X2: whatever the sizes, every chunk [chunk_text] returns is a run of
    consecutive characters of the input text. *)
Theorem chunk_is_substring (text : pystr) (chunk_size overlap : Z)
    (fuel : nat) (cs : list pystr) :
  chunk_text fuel text chunk_size overlap = Some cs →
  Forall (λ c, ∃ pre post, text = pre ++ c ++ post) cs.
Proof.
  apply chunk_text_Forall. intros s _.
  eapply infix_trans; [apply strip_infix | apply cut_infix].
Qed.

Lemma chunk_is_substring_witness :
  Forall (λ c, ∃ pre post, sample_text = pre ++ c ++ post)
    (list_ascii_of_string <$>
       ["Hello world."; "orld. This is a test"; "test! And more text";
        "text here"]%string).
Proof.
  apply (chunk_is_substring sample_text 20 5 47). vm_compute. reflexivity.
Defined.

Section ChunkRuns.
Variables (text : pystr) (chunk_size overlap : Z).

Lemma first_step_whole_text cs :
  Z.of_nat (length text) ≤ chunk_size →
  chunk_step text chunk_size overlap {| start := 0; chunks := cs |} =
    {| start := chunk_size - overlap; chunks := emit text cs |}.
Proof.
  intros Hfit. unfold chunk_step, cut. cbn [start chunks].
  replace (0 + chunk_size) with chunk_size by lia.
  destruct (Z.ltb_spec chunk_size (Z.of_nat (length text))); [lia|].
  rewrite slice_nonneg by lia. rewrite Z.sub_0_r.
  change (Z.to_nat 0) with 0%nat. rewrite drop_0, take_ge by lia.
  done.
Qed.

Lemma stopped_loop fuel st :
  Z.of_nat (length text) ≤ start st →
  chunk_loop fuel text chunk_size overlap st = Some (chunks st).
Proof.
  intros Hst.
  assert (Hrun : running text st = false) by (apply Z.ltb_ge; lia).
  destruct fuel; simpl; by rewrite Hrun.
Qed.

Lemma running_loop fuel st :
  start st < Z.of_nat (length text) →
  chunk_loop (S fuel) text chunk_size overlap st =
    chunk_loop fuel text chunk_size overlap (chunk_step text chunk_size overlap st).
Proof.
  intros Hst. simpl.
  assert (Hrun : running text st = true) by (apply Z.ltb_lt; lia).
  by rewrite Hrun.
Qed.

(** The characters [cut] takes are those at the positions from [start]
    up to the end it returns. *)
Lemma cut_content s :
  0 ≤ s → 0 ≤ chunk_size →
  fst (cut text chunk_size s) =
    take (Z.to_nat (snd (cut text chunk_size s) - s)) (drop (Z.to_nat s) text).
Proof.
  intros Hs HS. rewrite cut_spec by done. unfold ChunkerSpec.spec_cut, ChunkerSpec.window.
  set (w := take (Z.to_nat chunk_size) (drop (Z.to_nat s) text)).
  assert (Hw : w = take (Z.to_nat (s + chunk_size - s)) (drop (Z.to_nat s) text)).
  { subst w. f_equal. lia. }
  destruct (_ <? Z.of_nat _); [|done].
  destruct (ChunkerSpec.last_terminal w) as [p|] eqn:Hp; [|done].
  destruct (chunk_size <? 2 * Z.of_nat p); [|done]. simpl.
  assert (Hlt : (p < length w)%nat).
  { pose proof (last_period_lt w) as Hl.
    rewrite last_period_terminal, Hp in Hl. lia. }
  subst w. rewrite take_take. f_equal.
  rewrite length_take in Hlt. lia.
Qed.

Lemma covered_from k st p :
  0 ≤ overlap → overlap < chunk_size → 2 * overlap ≤ chunk_size + 2 →
  (Z.to_nat (Z.of_nat (length text) - start st) ≤ k)%nat →
  0 ≤ start st → start st ≤ p → p < Z.of_nat (length text) →
  ∃ i, let st' := iterate i text chunk_size overlap st in
       running text st' = true ∧ 0 ≤ start st' ∧ start st' ≤ p ∧
       p < snd (cut text chunk_size (start st')).
Proof.
  intros HO Hlt Hhalf. revert st.
  induction k as [|k IH]; intros st Hk Hs0 Hsp Hp; [lia|].
  assert (Hrun : running text st = true) by (apply Z.ltb_lt; lia).
  destruct (Z_lt_dec p (snd (cut text chunk_size (start st)))) as [Hin|Hout].
  - exists 0%nat. simpl. done.
  - pose proof (step_progress text chunk_size overlap st Hlt Hhalf) as Hprog.
    pose proof (chunk_step_start text chunk_size overlap st) as Hnext.
    destruct (IH (chunk_step text chunk_size overlap st)) as [i Hi]; [lia..|].
    exists (S i). simpl. by rewrite Hrun.
Qed.

End ChunkRuns.

(** X3: a non-empty text no longer than the chunk size S and no longer
    than S - O is returned as one chunk, its [strip] (or as no chunk when
    it is blank), after a single iteration. *)
Theorem short_text_is_one_chunk (text : pystr) (chunk_size overlap : Z)
    (fuel : nat) :
  text ≠ [] →
  Z.of_nat (length text) ≤ chunk_size →
  Z.of_nat (length text) ≤ chunk_size - overlap →
  chunk_text (S fuel) text chunk_size overlap =
    Some (if decide (strip text = []) then [] else [strip text]).
Proof.
  intros Hne Hfit Hstop. unfold chunk_text.
  rewrite running_loop by (destruct text; [done | simpl; lia]).
  rewrite first_step_whole_text, stopped_loop by (simpl; lia).
  simpl. by rewrite emit_spec.
Qed.

Lemma short_text_is_one_chunk_witness :
  chunk_text 1 (list_ascii_of_string " abc def g ") 500 100 =
    Some (if decide (strip (list_ascii_of_string " abc def g ") = [])
          then [] else [strip (list_ascii_of_string " abc def g ")]).
Proof.
  apply (short_text_is_one_chunk (list_ascii_of_string " abc def g ") 500 100 0).
  - discriminate.
  - simpl. lia.
  - simpl. lia.
Defined.

(** X4: a text that fits in one window (length <= S) but is longer than
    S - O is chunked twice: the whole text, then once more its tail from
    position S - O on, which the first chunk already contains.  With the
    sizes [add_document] uses this happens for every text of 401 to 500
    characters. *)
Theorem fitting_text_tail_is_chunked_again (text : pystr)
    (chunk_size overlap : Z) (fuel : nat) :
  Z.of_nat (length text) ≤ chunk_size →
  0 ≤ chunk_size - overlap →
  chunk_size - overlap < Z.of_nat (length text) →
  Z.of_nat (length text) ≤ 2 * (chunk_size - overlap) →
  chunk_text (S (S fuel)) text chunk_size overlap =
    Some (emit (drop (Z.to_nat (chunk_size - overlap)) text) (emit text [])).
Proof.
  intros Hfit Hpos Hlong Hstop. unfold chunk_text.
  rewrite running_loop by (simpl; lia).
  rewrite first_step_whole_text by done.
  rewrite running_loop by (simpl; lia).
  rewrite stopped_loop.
  - rewrite chunk_step_chunks. simpl. by rewrite cut_final by lia.
  - rewrite chunk_step_start. cbn [start]. unfold cut.
    destruct (Z.ltb_spec (chunk_size - overlap + chunk_size)
                (Z.of_nat (length text))); [lia|]. cbn [snd]. lia.
Qed.

Lemma fitting_text_tail_is_chunked_again_witness :
  chunk_text 2 (list_ascii_of_string "abc def g") 10 4 =
    Some (list_ascii_of_string <$> ["abc def g"; "f g"]%string).
Proof.
  rewrite (fitting_text_tail_is_chunked_again
             (list_ascii_of_string "abc def g") 10 4 0);
    [vm_compute; reflexivity | simpl; lia..].
Defined.

(** X5: for 0 <= O < S with 2 * O <= S + 2, every position of the text
    lies in the window of some iteration of the loop, and the chunk taken
    there, before trimming, holds the character of that position: between
    two chunks nothing but trimmed whitespace is left out. *)
Theorem every_position_is_chunked (text : pystr) (chunk_size overlap : Z)
    (p : nat) (c : ascii) :
  0 ≤ overlap → overlap < chunk_size → 2 * overlap ≤ chunk_size + 2 →
  text !! p = Some c →
  ∃ i, let st := iterate i text chunk_size overlap
                   {| start := 0; chunks := [] |} in
       running text st = true ∧ 0 ≤ start st ∧ start st ≤ Z.of_nat p ∧
       fst (cut text chunk_size (start st)) !! (p - Z.to_nat (start st))%nat
         = Some c.
Proof.
  intros HO Hlt Hhalf Hp.
  pose proof (lookup_lt_Some _ _ _ Hp) as Hlen.
  destruct (covered_from text chunk_size overlap (length text)
              {| start := 0; chunks := [] |} (Z.of_nat p))
    as (i & Hrun & Hs0 & Hsp & Hend); simpl; [lia..|].
  exists i. simpl. repeat (split; [done|]).
  rewrite cut_content by lia.
  unfold pystr in *.
  rewrite lookup_take_lt by lia. rewrite lookup_drop. rewrite <- Hp. f_equal. lia.
Qed.

Lemma every_position_is_chunked_witness :
  ∃ i, let st := iterate i sample_text 20 5 {| start := 0; chunks := [] |} in
       running sample_text st = true ∧ 0 ≤ start st ∧
       start st ≤ Z.of_nat 30 ∧
       fst (cut sample_text 20 (start st)) !! (30 - Z.to_nat (start st))%nat
         = Some "n"%char.
Proof.
  apply (every_position_is_chunked sample_text 20 5 30 "n"%char); [lia..|].
  vm_compute. reflexivity.
Defined.

(** ** Embedding in batches *)

Section EmbedFacts.
Variable env : Env.

Lemma batches_nil fuel : batches fuel [] = [].
Proof. by destruct fuel. Qed.

Lemma batches_cons fuel t texts :
  batches (S fuel) (t :: texts) =
    take 100 (t :: texts) :: batches fuel (drop 100 (t :: texts)).
Proof. done. Qed.

Lemma batches_shape fuel texts :
  (length texts ≤ fuel)%nat →
  concat (batches fuel texts) = texts ∧
  Forall (λ b, (0 < length b ≤ 100)%nat) (batches fuel texts) ∧
  length (batches fuel texts) = ((length texts + 99) / 100)%nat.
Proof.
  revert texts. induction fuel as [|fuel IH]; intros texts Hlen.
  - destruct texts; [|simpl in Hlen; lia]. by repeat split.
  - destruct texts as [|t texts]; [by repeat split|].
    rewrite batches_cons.
    set (l := t :: texts) in *.
    assert (Hl : (0 < length l)%nat) by (simpl; lia).
    destruct (IH (drop 100 l)) as (Hcat & Hall & Hn).
    { rewrite length_drop. simpl in *. lia. }
    split; [|split].
    + rewrite concat_cons, Hcat. apply take_drop.
    + constructor; [|done]. rewrite length_take. lia.
    + rewrite length_cons, Hn, length_drop.
      destruct (le_lt_dec 100 (length l)) as [Hge|Hlt].
      * replace (length l + 99)%nat with (length l - 100 + 99 + 1 * 100)%nat by lia.
        rewrite Nat.div_add by lia. lia.
      * replace (length l - 100 + 99)%nat with 99%nat by lia.
        change (99 / 100)%nat with 0%nat.
        apply Nat.div_unique with (r := (length l - 1)%nat); lia.
Qed.

Lemma embed_batches_ok bs st es st' :
  embed_batches env bs st = (Ok es, st') →
  ∃ rs, Forall2 (λ b r, embeddings_create env b = inr r) bs rs ∧
        es = concat rs ∧
        collection st' = collection st ∧ documents st' = documents st ∧
        chroma st' = chroma st ∧
        requests st' = requests st ++ (EmbeddingRequest <$> bs).
Proof.
  revert st es st'. induction bs as [|b bs IH]; intros st es st' Hrun.
  - simpl in Hrun. unfold_monad. simplify_eq.
    exists []. repeat split; [constructor | by rewrite app_nil_r].
  - simpl in Hrun. unfold_monad. simpl in Hrun.
    destruct (embeddings_create env b) as [msg|r] eqn:Hb; simpl in Hrun; [done|].
    destruct (embed_batches env bs (log_request (EmbeddingRequest b) st))
      as [[rest| |] st1] eqn:Hrest; [|done..].
    simplify_eq. destruct (IH _ _ _ Hrest) as (rs & Hall & -> & Hc & Hd & Hs & Hr).
    exists (r :: rs). repeat split; try done.
    + by constructor.
    + rewrite Hr. simpl. by rewrite <- app_assoc.
Qed.

Lemma embed_batches_fails bs1 b bs2 rs msg st :
  Forall2 (λ b r, embeddings_create env b = inr r) bs1 rs →
  embeddings_create env b = inl msg →
  ∃ st',
    embed_batches env (bs1 ++ b :: bs2) st = (Raise (ProviderError msg), st') ∧
    collection st' = collection st ∧ documents st' = documents st ∧
    chroma st' = chroma st ∧
    requests st' = requests st ++ (EmbeddingRequest <$> bs1 ++ [b]).
Proof.
  intros Hall Hb. revert st.
  induction Hall as [|b1 r1 bs1 rs Hb1 _ IH]; intros st.
  - simpl. unfold_monad. simpl. rewrite Hb. simpl. eexists. by repeat split.
  - destruct (IH (log_request (EmbeddingRequest b1) st))
      as (st' & Hrun & Hc & Hd & Hs & Hr).
    exists st'. split; [|repeat split; try done].
    + simpl. unfold_monad. simpl. rewrite Hb1. simpl. by rewrite Hrun.
    + rewrite Hr. simpl. by rewrite <- app_assoc.
Qed.

End EmbedFacts.

(** X6: the batches [create_embeddings] sends are the texts in order, cut
    into runs of at most 100: nothing is lost or repeated, no batch is
    empty, and there are ceil(n / 100) of them. *)
Theorem batches_partition_texts (texts : list string) :
  concat (batches (length texts) texts) = texts ∧
  Forall (λ b, (0 < length b ≤ 100)%nat) (batches (length texts) texts) ∧
  length (batches (length texts) texts) = ((length texts + 99) / 100)%nat.
Proof. by apply batches_shape. Qed.

(** X7: when [create_embeddings] returns, it has sent exactly one
    embedding request per batch, in order, every one was answered, and the
    result is the answers concatenated; the registry, the handle and the
    store are as before. *)
Theorem create_embeddings_concatenates_answers (env : Env)
    (texts : list string) (st st' : State) (es : list Embedding) :
  create_embeddings env texts st = (Ok es, st') →
  ∃ rs,
    Forall2 (λ b r, embeddings_create env b = inr r)
            (batches (length texts) texts) rs ∧
    es = concat rs ∧
    collection st' = collection st ∧ documents st' = documents st ∧
    chroma st' = chroma st ∧
    requests st' =
      requests st ++ (EmbeddingRequest <$> batches (length texts) texts).
Proof. apply embed_batches_ok. Qed.

Lemma create_embeddings_concatenates_answers_witness :
  ∃ rs,
    Forall2 (λ b r, embeddings_create Reference.env b = inr r)
            (batches 2 ["ab"; "c"]) rs ∧
    [[2; 1]; [1; 1]]%Q = concat rs ∧
    collection (log_request (EmbeddingRequest ["ab"; "c"]) Reference.fresh)
      = collection Reference.fresh ∧
    documents (log_request (EmbeddingRequest ["ab"; "c"]) Reference.fresh)
      = documents Reference.fresh ∧
    chroma (log_request (EmbeddingRequest ["ab"; "c"]) Reference.fresh)
      = chroma Reference.fresh ∧
    requests (log_request (EmbeddingRequest ["ab"; "c"]) Reference.fresh) =
      requests Reference.fresh ++ (EmbeddingRequest <$> batches 2 ["ab"; "c"]).
Proof.
  apply (create_embeddings_concatenates_answers Reference.env ["ab"; "c"]
           Reference.fresh).
  reflexivity.
Defined.

(** X8: when the provider rejects a batch after answering the ones before
    it, [create_embeddings] raises the provider's error at that batch: the
    requests sent are those up to and including the rejected batch, none
    of the later batches is sent, and the answers already received are
    dropped. *)
Theorem create_embeddings_stops_at_rejected_batch (env : Env)
    (texts : list string) (st : State) (bs1 bs2 : list (list string))
    (b : list string) (rs : list (list Embedding)) (msg : string) :
  batches (length texts) texts = bs1 ++ b :: bs2 →
  Forall2 (λ b r, embeddings_create env b = inr r) bs1 rs →
  embeddings_create env b = inl msg →
  ∃ st',
    create_embeddings env texts st = (Raise (ProviderError msg), st') ∧
    collection st' = collection st ∧ documents st' = documents st ∧
    chroma st' = chroma st ∧
    requests st' = requests st ++ (EmbeddingRequest <$> bs1 ++ [b]).
Proof.
  intros Hbs Hall Hb. unfold create_embeddings. rewrite Hbs.
  by eapply embed_batches_fails.
Qed.

Lemma create_embeddings_stops_at_rejected_batch_witness :
  ∃ st',
    create_embeddings Reference.env_embed_fails_short
      (replicate 201 "a") Reference.fresh
      = (Raise (ProviderError "rate limit exceeded"), st') ∧
    collection st' = collection Reference.fresh ∧
    documents st' = documents Reference.fresh ∧
    chroma st' = chroma Reference.fresh ∧
    requests st' =
      requests Reference.fresh ++
      (EmbeddingRequest <$> [replicate 100 "a"; replicate 100 "a"] ++ [["a"]]).
Proof.
  apply (create_embeddings_stops_at_rejected_batch
           Reference.env_embed_fails_short (replicate 201 "a") Reference.fresh
           [replicate 100 "a"; replicate 100 "a"] [] ["a"]
           [Reference.embed_ok (replicate 100 "a");
            Reference.embed_ok (replicate 100 "a")]
           "rate limit exceeded").
  - vm_compute. reflexivity.
  - repeat constructor.
  - reflexivity.
Defined.

(** ** Building the index *)

Section BuildRuns.
Variable env : Env.

Lemma try_delete_collection name st :
  try_except (delete_collection name) (λ _, mret tt) st =
    (Ok tt, set_chroma (delete name (chroma st)) st).
Proof.
  unfold try_except, delete_collection. unfold_monad.
  destruct (chroma st !! name) eqn:Hn; simpl; [done|].
  rewrite delete_id by done. by destruct st.
Qed.

Lemma build_index_run docs st c m st1 es st2 :
  collect env docs [] [] st = (Ok (c, m), st1) →
  create_embeddings env c st1 = (Ok es, st2) →
  let ids := (λ i : nat, "chunk_" +:+ pretty i) <$> seq 0 (length c) in
  build_index env docs st =
    match create_fault env collection_name with
    | Some msg =>
        (Raise (StoreError msg),
         set_chroma (delete collection_name (chroma st2)) st2)
    | None =>
        match add_fault env ids es c m with
        | Some msg => (Raise (StoreError msg), built collection_name [] st2)
        | None =>
            (match es with [] => Raise IndexError | _ :: _ => Ok tt end,
             built collection_name (make_entries ids es c m) st2)
        end
    end.
Proof.
  intros Hc He ids. unfold build_index.
  rewrite (bind_ok _ _ _ _ _ Hc). cbv beta iota.
  rewrite (bind_ok _ _ _ _ _ He).
  rewrite (bind_ok _ _ _ _ _ (try_delete_collection _ _)).
  unfold create_collection, collection_add, collection_entries.
  unfold_monad. simpl.
  destruct (create_fault env collection_name) as [msg|]; [done|].
  rewrite lookup_delete_eq. simpl. rewrite lookup_insert_eq. simpl.
  fold ids.
  destruct (add_fault env ids es c m) as [msg|]; simpl.
  - unfold built, set_collection, set_chroma. simpl.
    by rewrite insert_delete_eq.
  - unfold built, set_collection, set_chroma. simpl.
    rewrite insert_insert_eq, insert_delete_eq. by destruct es.
Qed.

End BuildRuns.

Section BuildShape.
Variable env : Env.

Lemma bind_diverge {A B} (m : M A) (k : A → M B) st st' :
  m st = (Diverge, st') → (m ≫= k) st = (Diverge, st').
Proof. intros H. unfold mbind, M_bind. by rewrite H. Qed.

Lemma length_string_of_list_ascii l :
  String.length (string_of_list_ascii l) = length l.
Proof. induction l as [|c l IH]; simpl; congruence. Qed.

Lemma add_document_ok_inv path name type st chunks id st' :
  add_document env path name type st = (Ok (chunks, id), st') →
  ∃ pages cs fuel,
    pdf_pages env path = inr pages ∧
    chunk_text fuel (list_ascii_of_string (concat_pages pages)) 500 100
      = Some cs ∧
    chunks = string_of_list_ascii <$> cs ∧
    id = path_stem env path ∧
    st' = set_documents
            (<[MStr id := mkDocInfo (MStr name) (MStr type) (MStr path)
                                    (Z.of_nat (length chunks))]>
               (documents st)) st.
Proof.
  unfold add_document, extract_text_from_pdf. unfold_monad.
  destruct (pdf_pages env path) as [msg|pages]; simpl; [done|].
  destruct (chunk_text _ _ 500 100) as [cs|] eqn:Hcs; simpl; [|done].
  intros [= <- <- <-].
  by exists pages, cs, (length (list_ascii_of_string (concat_pages pages))).
Qed.

Lemma add_document_requests path name type st r st' :
  add_document env path name type st = (r, st') → requests st' = requests st.
Proof.
  unfold add_document, extract_text_from_pdf. unfold_monad.
  destruct (pdf_pages env path) as [msg|pages]; simpl; [by intros [= _ <-]|].
  destruct (chunk_text _ _ 500 100); simpl; by intros [= _ <-].
Qed.

Lemma collect_requests docs ac am st r st' :
  collect env docs ac am st = (r, st') → requests st' = requests st.
Proof.
  revert ac am st. induction docs as [|doc docs IH]; intros ac am st; simpl.
  - by intros [= _ <-].
  - unfold mbind, M_bind.
    destruct (add_document env _ _ _ st) as [[[chunks id]|e|] st1] eqn:Hadd;
      apply add_document_requests in Hadd.
    + intros Hrest%IH. congruence.
    + intros [= _ <-]. done.
    + intros [= _ <-]. done.
Qed.

(** What [collect] keeps true of the two lists it fills. *)
Lemma collect_shape (D : list DocSpec) docs ac am st c m st' :
  docs ⊆ D →
  collect env docs ac am st = (Ok (c, m), st') →
  let P := λ meta, ∃ doc j, doc ∈ D ∧
             meta = chunk_metadata (path_stem env (spec_path doc)) doc j in
  length ac = length am → Forall P am →
  length c = length m ∧ Forall P m ∧ (length ac ≤ length c)%nat.
Proof.
  intros HD Hrun P. revert ac am st HD Hrun.
  induction docs as [|doc docs IH]; intros ac am st HD; simpl.
  - intros [= <- <- <-] Hlen Ham. repeat split; [done..|lia].
  - unfold mbind, M_bind.
    destruct (add_document env _ _ _ st) as [[[chunks id]|e|] st1] eqn:Hadd;
      [|done..].
    apply add_document_ok_inv in Hadd as (_ & _ & _ & _ & _ & _ & -> & _).
    intros Hrest Hlen Ham.
    assert (Hsub : docs ⊆ D)
      by (intros x Hx; apply HD; by apply list_elem_of_further).
    assert (Hdoc : doc ∈ D) by apply HD, list_elem_of_here.
    destruct (IH _ _ _ Hsub Hrest) as (Hl & Hm & Hle).
    + rewrite !length_app, length_imap. lia.
    + apply Forall_app. split; [done|].
      apply Forall_lookup_2. intros i meta.
      rewrite list_lookup_imap.
      destruct (chunks !! i); simpl; [|done]. intros [= <-].
      by exists doc, (Z.of_nat i).
    + rewrite length_app in Hle. repeat split; [done..|lia].
Qed.

Lemma make_entries_lookup ids es ds ms i e :
  make_entries ids es ds ms !! i = Some e →
  ids !! i = Some (entry_id e) ∧ es !! i = Some (entry_embedding e) ∧
  ds !! i = Some (entry_document e) ∧
  ∃ meta, ms !! i = Some meta ∧ entry_metadata e = Some meta.
Proof.
  revert es ds ms i.
  induction ids as [|x ids IH]; intros [|y es] [|d ds] [|meta ms] i; try done.
  destruct i as [|i]; simpl.
  - intros [= <-]. simpl. repeat split; try done. by exists meta.
  - apply IH.
Qed.

Lemma chunk_id_lookup n i x :
  ((λ i : nat, "chunk_" +:+ pretty i) <$> seq 0 n) !! i = Some x →
  x = "chunk_" +:+ pretty i.
Proof.
  rewrite list_lookup_fmap. intros Hx.
  destruct (seq 0 n !! i) as [j|] eqn:Hj; [|done].
  apply lookup_seq in Hj as [-> _]. simpl in Hx. by simplify_eq.
Qed.

Lemma chunk_id_inj (i j : nat) :
  "chunk_" +:+ pretty i = "chunk_" +:+ pretty j → i = j.
Proof. intros [= H]. by apply (inj pretty). Qed.

Lemma build_index_ok_inv docs st st' :
  build_index env docs st = (Ok tt, st') →
  ∃ c m st1 es st2,
    collect env docs [] [] st = (Ok (c, m), st1) ∧
    create_embeddings env c st1 = (Ok es, st2) ∧
    es ≠ [] ∧
    st' = built collection_name
            (make_entries ((λ i : nat, "chunk_" +:+ pretty i)
                             <$> seq 0 (length c)) es c m) st2.
Proof.
  intros Hrun.
  destruct (collect env docs [] [] st) as [[[c m]|e|] st1] eqn:Hc.
  - destruct (create_embeddings env c st1) as [[es|e|] st2] eqn:He.
    + rewrite (build_index_run env _ _ _ _ _ _ _ Hc He) in Hrun.
      destruct (create_fault env collection_name); [done|].
      destruct (add_fault env _ es c m); [done|].
      destruct es; [done|]. simplify_eq. by exists c, m, st1, (e :: es), st2.
    + unfold build_index in Hrun.
      rewrite (bind_ok _ _ _ _ _ Hc) in Hrun. cbv beta iota in Hrun.
      by rewrite (bind_raise _ _ _ _ _ He) in Hrun.
    + unfold build_index in Hrun.
      rewrite (bind_ok _ _ _ _ _ Hc) in Hrun. cbv beta iota in Hrun.
      by rewrite (bind_diverge _ _ _ _ He) in Hrun.
  - unfold build_index in Hrun. by rewrite (bind_raise _ _ _ _ _ Hc) in Hrun.
  - unfold build_index in Hrun. by rewrite (bind_diverge _ _ _ _ Hc) in Hrun.
Qed.

End BuildShape.

(** What a run of [build_index] that returns leaves in the store. *)
Lemma build_index_entries (env : Env) (docs : list DocSpec)
    (st st' : State) :
  build_index env docs st = (Ok tt, st') →
  ∃ entries,
    collection st' = Some collection_name ∧
    chroma st' = <[collection_name := entries]> (chroma st) ∧
    entries ≠ [] ∧
    (∀ i e, entries !! i = Some e →
       entry_id e = "chunk_" +:+ pretty i ∧
       ∃ doc j, doc ∈ docs ∧
         entry_metadata e =
           Some (chunk_metadata (path_stem env (spec_path doc)) doc j)) ∧
    NoDup (entry_id <$> entries).
Proof.
  intros (c & m & st1 & es & st2 & Hc & He & Hes & ->)%build_index_ok_inv.
  pose proof (collect_store env _ _ _ _ _ _ Hc) as [Hs1 _].
  pose proof (embed_batches_store env _ _ _ _ He) as [Hs2 _].
  destruct (collect_shape env docs docs [] [] st c m st1)
    as (Hlen & Hmeta & _); [done..|constructor|].
  set (ids := (λ i : nat, "chunk_" +:+ pretty i) <$> seq 0 (length c)).
  assert (Hid : ∀ i e, make_entries ids es c m !! i = Some e →
                       entry_id e = "chunk_" +:+ pretty i).
  { intros i e (Hi & _)%make_entries_lookup. by apply chunk_id_lookup in Hi. }
  exists (make_entries ids es c m). repeat split.
  - simpl. congruence.
  - assert (c ≠ []) as Hne.
    { intros ->. apply embed_batches_ok in He as (rs & Hall & -> & _).
      simpl in Hall. by inversion Hall; subst. }
    destruct es as [|e es]; [done|]. destruct c as [|d c]; [done|].
    destruct m as [|meta m]; [done|]. done.
  - by apply Hid.
  - apply make_entries_lookup in H as (_ & _ & _ & meta & Hm & ->).
    eapply Forall_lookup_1 in Hmeta as (doc & j & Hdoc & ->); [|done].
    by exists doc, j.
  - apply NoDup_alt. intros i j x.
    rewrite !list_lookup_fmap.
    destruct (make_entries ids es c m !! i) as [ei|] eqn:Hi; [|done].
    destruct (make_entries ids es c m !! j) as [ej|] eqn:Hj; [|done].
    simpl. intros [= <-] [= Heq].
    apply Hid in Hi, Hj. rewrite Hi, Hj in Heq. by apply chunk_id_inj in Heq.
Qed.

Section BuildContent.
Variable env : Env.

(** The chunk lists [collect] gathers, document by document. *)
Lemma collect_per_doc docs ac am st c m st' :
  collect env docs ac am st = (Ok (c, m), st') →
  ∃ per,
    Forall2 (λ doc cs, ∃ s s',
               add_document env (spec_path doc) (spec_name doc)
                            (spec_type doc) s
                 = (Ok (cs, path_stem env (spec_path doc)), s')) docs per ∧
    c = ac ++ concat per ∧
    m = am ++ concat (zip_with
                        (λ doc cs,
                           imap (λ i _, chunk_metadata
                                          (path_stem env (spec_path doc)) doc
                                          (Z.of_nat i)) cs)
                        docs per).
Proof.
  revert ac am st. induction docs as [|doc docs IH]; intros ac am st; simpl.
  - intros [= <- <- <-]. exists []. by rewrite !app_nil_r.
  - unfold mbind, M_bind.
    destruct (add_document env _ _ _ st) as [[[chunks id]|e|] st1] eqn:Hadd;
      [|done..].
    pose proof Hadd as (_ & _ & _ & _ & _ & _ & -> & _)%add_document_ok_inv.
    intros (per & Hper & -> & ->)%IH.
    exists (chunks :: per). split; [constructor; eauto|].
    simpl. by rewrite <- !app_assoc.
Qed.

Lemma make_entries_length ids es ds ms n :
  length ids = n → length ds = n → length ms = n →
  length (make_entries ids es ds ms) = (n `min` length es)%nat.
Proof.
  revert es ds ms n.
  induction ids as [|x ids IH]; intros [|e es] [|d ds] [|m ms] n; simpl;
    try (intros; subst; simpl in *; lia).
  intros <- [= Hd] [= Hm]. by rewrite (IH es ds ms (length ids)).
Qed.

Lemma make_entries_lookup_Some ids es ds ms i x e d m :
  ids !! i = Some x → es !! i = Some e → ds !! i = Some d →
  ms !! i = Some m →
  make_entries ids es ds ms !! i = Some (mkEntry x e d (Some m)).
Proof.
  revert es ds ms i.
  induction ids as [|x0 ids IH]; intros [|e0 es] [|d0 ds] [|m0 ms] [|i];
    simpl; try done.
  - by intros [= ->] [= ->] [= ->] [= ->].
  - apply IH.
Qed.

End BuildContent.

(** X9: when [build_index] returns, the handle is set and the store's
    collection holds exactly the entries of this run, whatever it held
    before, the other collections being untouched: with the chunks that
    [add_document] returned for the documents given, in order, and the
    embeddings that [create_embeddings] returned for them, the entry at
    position i has the id chunk_i, the i-th embedding, the i-th chunk as
    its text, and as metadata the identifier, name, type and path of the
    chunk's document together with the chunk's index inside that document;
    there are as many entries as chunks (as embeddings, should the
    provider have answered with fewer), at least one, and their ids are
    pairwise distinct. *)
Theorem build_index_replaces_collection (env : Env) (docs : list DocSpec)
    (st st' : State) :
  build_index env docs st = (Ok tt, st') →
  ∃ (per : list (list string)) (es : list Embedding),
    Forall2 (λ doc cs, ∃ s s',
               add_document env (spec_path doc) (spec_name doc)
                            (spec_type doc) s
                 = (Ok (cs, path_stem env (spec_path doc)), s')) docs per ∧
    (∃ s s', create_embeddings env (concat per) s = (Ok es, s')) ∧
    let chunks := concat per in
    let metas :=
      concat (zip_with
                (λ doc cs,
                   imap (λ i _, chunk_metadata
                                  (path_stem env (spec_path doc)) doc
                                  (Z.of_nat i)) cs)
                docs per) in
    let ids := (λ i : nat, "chunk_" +:+ pretty i) <$> seq 0 (length chunks) in
    let entries := make_entries ids es chunks metas in
    collection st' = Some collection_name ∧
    chroma st' = <[collection_name := entries]> (chroma st) ∧
    chunks ≠ [] ∧ es ≠ [] ∧ length metas = length chunks ∧
    length entries = (length chunks `min` length es)%nat ∧
    (∀ i c e m,
       chunks !! i = Some c → es !! i = Some e → metas !! i = Some m →
       entries !! i = Some (mkEntry ("chunk_" +:+ pretty i) e c (Some m))) ∧
    NoDup (entry_id <$> entries).
Proof.
  intros Hrun.
  destruct (build_index_entries _ _ _ _ Hrun)
    as (entries0 & _ & Hch0 & Hne0 & _ & Hnd).
  apply build_index_ok_inv in Hrun
    as (c & m & st1 & es & st2 & Hc & He & Hes & ->).
  pose proof (collect_store env _ _ _ _ _ _ Hc) as [Hs1 _].
  pose proof (embed_batches_store env _ _ _ _ He) as [Hs2 _].
  destruct (collect_shape env docs docs [] [] st c m st1)
    as (Hlen & _ & _); [done..|constructor|].
  apply collect_per_doc in Hc as (per & Hper & -> & ->). simpl in *.
  exists per, es. split; [done|]. split; [by eauto|]. cbv zeta.
  set (metas := concat (zip_with _ docs per)) in *.
  set (chunks := concat per) in *.
  set (ids := (λ i : nat, "chunk_" +:+ pretty i) <$> seq 0 (length chunks)) in *.
  assert (Hsame : entries0 = make_entries ids es chunks metas).
  { apply (f_equal (λ store, store !! collection_name)) in Hch0.
    simpl in Hch0. rewrite !lookup_insert_eq in Hch0.
    by injection Hch0 as <-. }
  subst entries0.
  assert (Hids : length ids = length chunks)
    by (subst ids; by rewrite length_fmap, length_seq).
  repeat split.
  - simpl. congruence.
  - intros Hnil. apply Hne0. rewrite Hnil. clearbody ids.
    by destruct ids, es.
  - done.
  - done.
  - by apply make_entries_length.
  - intros i c e m Hc He' Hm. apply make_entries_lookup_Some; try done.
    subst ids. rewrite list_lookup_fmap.
    rewrite lookup_seq_lt by (by eapply lookup_lt_Some). done.
  - done.
Qed.

Lemma build_index_replaces_collection_witness :
  let docs := [mkDocSpec "directive_001.pdf" "Directive 001" "Compliance"] in
  let st' := snd (build_index Reference.env docs Reference.loaded) in
  ∃ (per : list (list string)) (es : list Embedding),
    Forall2 (λ doc cs, ∃ s s',
               add_document Reference.env (spec_path doc) (spec_name doc)
                            (spec_type doc) s
                 = (Ok (cs, path_stem Reference.env (spec_path doc)), s'))
            docs per ∧
    (∃ s s', create_embeddings Reference.env (concat per) s = (Ok es, s')) ∧
    let chunks := concat per in
    let metas :=
      concat (zip_with
                (λ doc cs,
                   imap (λ i _, chunk_metadata
                                  (path_stem Reference.env (spec_path doc))
                                  doc (Z.of_nat i)) cs)
                docs per) in
    let ids := (λ i : nat, "chunk_" +:+ pretty i) <$> seq 0 (length chunks) in
    let entries := make_entries ids es chunks metas in
    collection st' = Some collection_name ∧
    chroma st' = <[collection_name := entries]> (chroma Reference.loaded) ∧
    chunks ≠ [] ∧ es ≠ [] ∧ length metas = length chunks ∧
    length entries = (length chunks `min` length es)%nat ∧
    (∀ i c e m,
       chunks !! i = Some c → es !! i = Some e → metas !! i = Some m →
       entries !! i = Some (mkEntry ("chunk_" +:+ pretty i) e c (Some m))) ∧
    NoDup (entry_id <$> entries).
Proof.
  intros docs st'.
  apply (build_index_replaces_collection Reference.env docs Reference.loaded st').
  subst st'.
  assert (Hok : fst (build_index Reference.env docs Reference.loaded) = Ok tt)
    by (vm_compute; reflexivity).
  destruct (build_index Reference.env docs Reference.loaded) as [out st'].
  simpl in *. by subst out.
Defined.

(** X10: when the documents given yield no chunk at all (an empty list of
    documents, or PDFs without text), [build_index] never returns: it
    sends no embedding request, raises an error of the store or, at its
    closing report, [IndexError], and leaves the collection removed or
    empty, whatever it held before. *)
Theorem build_index_without_chunks_fails (env : Env) (docs : list DocSpec)
    (st st1 : State) (metas : list (gmap string MetaVal)) :
  collect env docs [] [] st = (Ok ([], metas), st1) →
  ∃ e st',
    build_index env docs st = (Raise e, st') ∧
    (e = IndexError ∨ ∃ msg, e = StoreError msg) ∧
    (chroma st' !! collection_name = None ∨
     chroma st' !! collection_name = Some []) ∧
    requests st' = requests st.
Proof.
  intros Hc.
  pose proof (collect_requests env _ _ _ _ _ _ Hc) as Hr.
  assert (He : create_embeddings env [] st1 = (Ok [], st1)) by done.
  rewrite (build_index_run env _ _ _ _ _ _ _ Hc He).
  destruct (create_fault env collection_name) as [msg|].
  { eexists _, _. split; [done|]. repeat split; [eauto| |done].
    left. simpl. apply lookup_delete_eq. }
  destruct (add_fault env _ [] [] metas) as [msg|].
  { eexists _, _. split; [done|]. repeat split; [eauto| |done].
    right. simpl. apply lookup_insert_eq. }
  eexists _, _. split; [done|]. repeat split; [eauto| |done].
  right. simpl. apply lookup_insert_eq.
Qed.

Lemma build_index_without_chunks_fails_witness :
  ∃ e st',
    build_index Reference.env [] Reference.loaded = (Raise e, st') ∧
    (e = IndexError ∨ ∃ msg, e = StoreError msg) ∧
    (chroma st' !! collection_name = None ∨
     chroma st' !! collection_name = Some []) ∧
    requests st' = requests Reference.loaded.
Proof.
  apply (build_index_without_chunks_fails Reference.env [] Reference.loaded
           Reference.loaded []).
  reflexivity.
Defined.

(** X11: when [add_document] returns, the identifier is the stem of the
    path, every chunk has between 1 and 500 characters, the registry
    holds under that identifier the name, type, path and number of chunks
    of this document, and neither the store, the handle nor the request
    log has changed. *)
Theorem add_document_registers_chunks (env : Env)
    (path name type : string) (st st' : State) (chunks : list string)
    (id : string) :
  add_document env path name type st = (Ok (chunks, id), st') →
  id = path_stem env path ∧
  Forall (λ c, (0 < String.length c ≤ 500)%nat) chunks ∧
  documents st' =
    <[MStr id := mkDocInfo (MStr name) (MStr type) (MStr path)
                           (Z.of_nat (length chunks))]> (documents st) ∧
  chroma st' = chroma st ∧ collection st' = collection st ∧
  requests st' = requests st.
Proof.
  intros Hrun.
  pose proof (add_document_requests env _ _ _ _ _ _ Hrun) as Hr.
  apply add_document_ok_inv in Hrun
    as (pages & cs & fuel & _ & Hcs & -> & -> & ->).
  repeat split; try done.
  apply Forall_fmap.
  eapply Forall_impl;
    [apply (chunk_text_Forall
              (list_ascii_of_string (concat_pages pages)) 500 100
              (λ c, c ≠ [] ∧ (length c ≤ 500)%nat) fuel cs); [|done]|].
  - intros s Hs. split; [done|].
    etransitivity; [apply infix_length, strip_infix|].
    apply (cut_length _ 500). lia.
  - intros c [Hne Hle]. simpl. rewrite length_string_of_list_ascii.
    destruct c; [done|]. simpl in *. lia.
Qed.

Lemma add_document_registers_chunks_witness :
  let st' := snd (add_document Reference.env "directive_001.pdf"
                    "Directive 001" "Compliance" Reference.fresh) in
  "directive_001.pdf" = path_stem Reference.env "directive_001.pdf" ∧
  Forall (λ c, (0 < String.length c ≤ 500)%nat)
         ["First page. " +:+ nl +:+ nl +:+ "Second page."] ∧
  documents st' =
    <[MStr "directive_001.pdf" :=
        mkDocInfo (MStr "Directive 001") (MStr "Compliance")
                  (MStr "directive_001.pdf")
                  (Z.of_nat (length ["First page. " +:+ nl +:+ nl
                                     +:+ "Second page."]))]>
      (documents Reference.fresh) ∧
  chroma st' = chroma Reference.fresh ∧
  collection st' = collection Reference.fresh ∧
  requests st' = requests Reference.fresh.
Proof.
  intros st'.
  apply (add_document_registers_chunks Reference.env "directive_001.pdf"
           "Directive 001" "Compliance" Reference.fresh st').
  subst st'.
  assert (Hok : fst (add_document Reference.env "directive_001.pdf"
                       "Directive 001" "Compliance" Reference.fresh)
                = Ok (["First page. " +:+ nl +:+ nl +:+ "Second page."],
                      "directive_001.pdf"))
    by (vm_compute; reflexivity).
  destruct (add_document _ _ _ _ _) as [out st']. simpl in *. by subst out.
Defined.

(** X12: the registry is keyed by the stem of the path alone: when two
    documents whose paths have the same stem are added one after the
    other, the record of the second replaces that of the first, and the
    registry is as if the first had never been added. *)
Theorem same_stem_replaces_record (env : Env)
    (path1 name1 type1 path2 name2 type2 : string) (st st1 st2 : State)
    (chunks1 chunks2 : list string) (id1 id2 : string) :
  path_stem env path1 = path_stem env path2 →
  add_document env path1 name1 type1 st = (Ok (chunks1, id1), st1) →
  add_document env path2 name2 type2 st1 = (Ok (chunks2, id2), st2) →
  id1 = id2 ∧
  documents st2 =
    <[MStr id2 := mkDocInfo (MStr name2) (MStr type2) (MStr path2)
                            (Z.of_nat (length chunks2))]> (documents st).
Proof.
  intros Hstem
    (_ & _ & _ & _ & _ & _ & -> & ->)%add_document_ok_inv
    (_ & _ & _ & _ & _ & _ & -> & ->)%add_document_ok_inv.
  split; [done|]. simpl. rewrite Hstem. apply insert_insert_eq.
Qed.

Lemma same_stem_replaces_record_witness :
  let st1 := snd (add_document Reference.env "directive_001.pdf"
                    "Directive 001" "Compliance" Reference.fresh) in
  let st2 := snd (add_document Reference.env "directive_001.pdf"
                    "Directive 001 (draft)" "Safety" st1) in
  "directive_001.pdf" = "directive_001.pdf" ∧
  documents st2 =
    <[MStr "directive_001.pdf" :=
        mkDocInfo (MStr "Directive 001 (draft)") (MStr "Safety")
                  (MStr "directive_001.pdf")
                  (Z.of_nat (length ["First page. " +:+ nl +:+ nl
                                     +:+ "Second page."]))]>
      (documents Reference.fresh).
Proof.
  intros st1 st2.
  assert (H1 : fst (add_document Reference.env "directive_001.pdf"
                      "Directive 001" "Compliance" Reference.fresh)
               = Ok (["First page. " +:+ nl +:+ nl +:+ "Second page."],
                     "directive_001.pdf"))
    by (vm_compute; reflexivity).
  assert (H2 : fst (add_document Reference.env "directive_001.pdf"
                      "Directive 001 (draft)" "Safety" st1)
               = Ok (["First page. " +:+ nl +:+ nl +:+ "Second page."],
                     "directive_001.pdf")).
  { unfold add_document, extract_text_from_pdf. unfold_monad. simpl.
    vm_compute. reflexivity. }
  apply (same_stem_replaces_record Reference.env
           "directive_001.pdf" "Directive 001" "Compliance"
           "directive_001.pdf" "Directive 001 (draft)" "Safety"
           Reference.fresh st1 st2
           ["First page. " +:+ nl +:+ nl +:+ "Second page."]
           ["First page. " +:+ nl +:+ nl +:+ "Second page."]
           "directive_001.pdf" "directive_001.pdf").
  - reflexivity.
  - subst st1. destruct (add_document _ _ _ _ Reference.fresh) as [out s].
    simpl in *. by subst out.
  - subst st2. destruct (add_document _ _ _ _ st1) as [out s].
    simpl in *. by subst out.
Defined.

(** ** Reloading and statistics *)

Section LoadRuns.
Import RegistrySpec.

(** What an operation of the reload leaves alone. *)
Local Abbreviation frame st st' :=
  (collection st' = collection st ∧ chroma st' = chroma st ∧
   requests st' = requests st).

Local Ltac frame_case :=
  intros [= <- <-]; split; [done | first [by left | by right]].

Lemma register_doc_frame meta st r st' :
  register_doc meta st = (r, st') →
  frame st st' ∧ (r = Ok tt ∨ (r = Raise AttributeError ∧ meta = None)).
Proof.
  unfold register_doc, meta_get. unfold_monad.
  destruct meta as [m|]; simpl; [|frame_case].
  destruct (m !! "document_id") as [id|]; simpl; [|frame_case].
  destruct (meta_truthy id && bool_decide (documents st !! id = None));
    simpl; frame_case.
Qed.

Lemma count_chunk_frame meta st r st' :
  count_chunk meta st = (r, st') →
  frame st st' ∧ (r = Ok tt ∨ (r = Raise AttributeError ∧ meta = None)).
Proof.
  unfold count_chunk, meta_get. unfold_monad.
  destruct meta as [m|]; simpl; [|frame_case].
  destruct (m !! "document_id") as [id|]; simpl; [|frame_case].
  destruct (documents st !! id); simpl; frame_case.
Qed.

Lemma for_each_frame (body : option (gmap string MetaVal) → M unit)
    metas st r st' :
  (∀ meta st r st', body meta st = (r, st') →
     frame st st' ∧ (r = Ok tt ∨ (r = Raise AttributeError ∧ meta = None))) →
  for_each metas body st = (r, st') →
  frame st st' ∧ (r = Ok tt ∨ (r = Raise AttributeError ∧ None ∈ metas)).
Proof.
  intros Hbody. revert st.
  induction metas as [|meta metas IH]; intros st; simpl.
  - intros [= <- <-]. split; [done | by left].
  - unfold mbind, M_bind.
    destruct (body meta st) as [out st1] eqn:Hb.
    apply Hbody in Hb as ((Hc & Hs & Hr) & [-> | [-> ->]]).
    + intros ((Hc' & Hs' & Hr') & Hout)%IH.
      split; [repeat split; congruence|].
      destruct Hout as [-> | [-> Hin]]; [by left | right].
      split; [done | by apply list_elem_of_further].
    + intros [= <- <-]. split; [done | right].
      split; [done | apply list_elem_of_here].
Qed.

Lemma for_each_raises (body : option (gmap string MetaVal) → M unit)
    metas st :
  (∀ st, body None st = (Raise AttributeError, st)) →
  (∀ meta st r st', body meta st = (r, st') →
     frame st st' ∧ (r = Ok tt ∨ (r = Raise AttributeError ∧ meta = None))) →
  None ∈ metas →
  ∃ st', for_each metas body st = (Raise AttributeError, st') ∧ frame st st'.
Proof.
  intros Hnone Hbody. revert st.
  induction metas as [|meta metas IH]; intros st Hin; [by inversion Hin|].
  simpl. unfold mbind, M_bind.
  destruct (body meta st) as [out st1] eqn:Hb.
  pose proof (Hbody _ _ _ _ Hb) as ((Hc & Hs & Hr) & [-> | [-> ->]]).
  - apply elem_of_cons in Hin as [<- | Hin].
    { rewrite Hnone in Hb. done. }
    destruct (IH st1 Hin) as (st' & -> & Hc' & Hs' & Hr').
    exists st'. split; [done | repeat split; congruence].
  - exists st1. done.
Qed.

(** [load_index] once the store has the collection. *)
Lemma load_index_present st entries :
  chroma st !! collection_name = Some entries →
  load_index st =
    let st0 := set_collection (Some collection_name) st in
    match sample_of entries with
    | [] => (Ok tt, st0)
    | _ :: _ =>
        match (for_each (sample_of entries) register_doc;;
               for_each (sample_of entries) count_chunk) st0 with
        | (Raise e, st') =>
            (Raise (ValueError ("Failed to load collection: " +:+ exn_str e)),
             st')
        | out => out
        end
    end.
Proof.
  intros Hs.
  cbv beta iota zeta delta
    [load_index try_except get_collection collection_get_metadatas
     collection_entries mbind M_bind mret M_ret get_state modify raise].
  rewrite Hs. simpl. rewrite Hs. simpl. rewrite Hs.
  change (Z.to_nat 1000) with 1000%nat. fold (sample_of entries).
  destruct (sample_of entries) as [|meta metas] eqn:Hsample; [done|].
  destruct (for_each (meta :: metas) register_doc _) as [[[]|e|] st1];
    [|done..].
  by destruct (for_each (meta :: metas) count_chunk st1) as [[[]|e|] st2].
Qed.

Lemma load_index_absent st :
  chroma st !! collection_name = None →
  load_index st =
    (Raise (ValueError "Failed to load collection: Collection does not exist"),
     st).
Proof.
  intros Hs.
  cbv beta iota zeta delta
    [load_index try_except get_collection mbind M_bind mret M_ret get_state
     raise].
  by rewrite Hs.
Qed.

Lemma loops_frame metas st r st' :
  (for_each metas register_doc;; for_each metas count_chunk) st = (r, st') →
  frame st st' ∧ (r = Ok tt ∨ (r = Raise AttributeError ∧ None ∈ metas)).
Proof.
  unfold mbind, M_bind.
  destruct (for_each metas register_doc st) as [out st1] eqn:H1.
  apply (for_each_frame _ _ _ _ _ register_doc_frame) in H1
    as ((Hc & Hs & Hr) & [-> | [-> Hin]]).
  - intros ((Hc' & Hs' & Hr') & Hout)%(for_each_frame _ _ _ _ _ count_chunk_frame).
    split; [repeat split; congruence | done].
  - intros [= <- <-]. split; [done | by right].
Qed.

End LoadRuns.


(** X14: when the store has no collection of the configured name,
    [load_index] raises [ValueError], with the text of the store's error
    after "Failed to load collection: ", and leaves the instance as it
    was: the handle is not set, so an instance that had none still has
    none. *)
Theorem load_index_missing_collection (st : State) :
  chroma st !! collection_name = None →
  ∃ msg,
    load_index st =
      (Raise (ValueError ("Failed to load collection: " +:+ msg)), st).
Proof. intros Hs. eexists. by rewrite (load_index_absent _ Hs). Qed.

Lemma load_index_missing_collection_witness :
  ∃ msg,
    load_index (mkState None ∅ ∅ []) =
      (Raise (ValueError ("Failed to load collection: " +:+ msg)),
       mkState None ∅ ∅ []).
Proof.
  apply (load_index_missing_collection (mkState None ∅ ∅ [])).
  apply lookup_empty.
Defined.

(** X15: when the collection exists and one of the sampled entries has no
    metadata, [load_index] raises [ValueError] for the missing attribute,
    yet the handle is set: the instance is left loaded, with a registry
    that stopped being filled at that entry. *)
Theorem load_index_fails_with_handle_set (st : State) (entries : list Entry) :
  chroma st !! collection_name = Some entries →
  None ∈ RegistrySpec.sample_of entries →
  ∃ st',
    load_index st =
      (Raise (ValueError
                ("Failed to load collection: " +:+ exn_str AttributeError)),
       st') ∧
    collection st' = Some collection_name.
Proof.
  intros Hs Hin. rewrite (load_index_present _ _ Hs). cbv zeta.
  destruct (RegistrySpec.sample_of entries) as [|meta metas] eqn:Hsample;
    [by inversion Hin|].
  set (st0 := set_collection (Some collection_name) st).
  destruct (for_each_raises register_doc (meta :: metas) st0)
    as (st' & Hrun & Hc & _); [done | apply register_doc_frame | done |].
  exists st'. rewrite (bind_raise _ _ _ _ _ Hrun). by rewrite Hc.
Qed.

Lemma load_index_fails_with_handle_set_witness :
  ∃ st',
    load_index Reference.fresh_bare =
      (Raise (ValueError
                ("Failed to load collection: " +:+ exn_str AttributeError)),
       st') ∧
    collection st' = Some collection_name.
Proof.
  apply (load_index_fails_with_handle_set Reference.fresh_bare
           (Reference.entries ++ [Reference.bare_entry])).
  - apply lookup_singleton_eq.
  - unfold RegistrySpec.sample_of.
    rewrite take_ge by (rewrite length_app; simpl; lia).
    rewrite fmap_app. apply elem_of_app. right. apply list_elem_of_here.
Defined.

(** X16: once [load_index] has returned, [get_stats] returns the
    statistics without changing the instance; [total_chunks] is the size
    of the whole collection, also above the 1000 entries the registry was
    sampled from, and [total_documents] is the size of the registry. *)
Theorem get_stats_after_load (model : string) (st st' : State)
    (entries : list Entry) :
  load_index st = (Ok tt, st') →
  chroma st !! collection_name = Some entries →
  Stats.get_stats model st' =
    (Ok (Stats.StatsOf (Z.of_nat (length entries))
                       (Z.of_nat (size (documents st'))) (documents st')
                       collection_name Stats.embedding_model model),
     st').
Proof.
  intros (entries' & Hs' & ->)%load_index_ok_inv Hs.
  assert (entries' = entries) as -> by congruence.
  unfold Stats.get_stats, collection_entries. unfold_monad. simpl.
  by rewrite Hs.
Qed.

Lemma get_stats_after_load_witness :
  let st' := snd (load_index Reference.fresh_large) in
  Stats.get_stats "gpt-4o-mini" st' =
    (Ok (Stats.StatsOf (Z.of_nat (length Reference.large_entries))
                       (Z.of_nat (size (documents st'))) (documents st')
                       collection_name Stats.embedding_model "gpt-4o-mini"),
     st').
Proof.
  intros st'.
  apply (get_stats_after_load "gpt-4o-mini" Reference.fresh_large st'
           Reference.large_entries); [|apply lookup_singleton_eq].
  subst st'.
  assert (Hok : fst (load_index Reference.fresh_large) = Ok tt)
    by (vm_compute; reflexivity).
  destruct (load_index Reference.fresh_large) as [out st']. simpl in *.
  by subst out.
Defined.

(** ** The query path *)

Section QueryRuns.
Variable env : Env.

Lemma log_requests_nil st : log_requests [] st = st.
Proof. unfold log_requests. rewrite app_nil_r. by destruct st. Qed.

Lemma log_requests_app rs1 rs2 st :
  log_requests rs2 (log_requests rs1 st) = log_requests (rs1 ++ rs2) st.
Proof. unfold log_requests. simpl. by rewrite app_assoc. Qed.

Lemma search_run q k f st :
  ∃ r sent,
    search env q k f st = (r, log_requests sent st) ∧ r ≠ Diverge ∧
    (sent = [] ∨ sent = [EmbeddingRequest [q]]) ∧
    (succeeded r = true → sent = [EmbeddingRequest [q]]).
Proof.
  unfold search, collection_query, collection_entries. unfold_monad.
  destruct (collection st) as [h|]; simpl.
  - change (log_request (EmbeddingRequest [q]) st)
      with (log_requests [EmbeddingRequest [q]] st).
    destruct (embeddings_create env [q]) as [msg|[|v vs]]; simpl;
      [by eexists _, _; repeat split; eauto..|].
    destruct (chroma st !! h) as [entries|]; simpl;
      [|by eexists _, _; repeat split; eauto].
    destruct (store_query env entries v k (where_filter f)) as [msg|r]; simpl;
      by eexists _, _; repeat split; eauto.
  - exists (Raise (ValueError "Collection not loaded")), [].
    rewrite log_requests_nil. repeat split; [done|by left|done].
Qed.

(** The hit as [generate_response] reports it among the sources. *)
Local Abbreviation source_of hit :=
  (mkSource hit.1.1 hit.1.2 (hit.2 ≫= (λ m : gmap string MetaVal,
                                          m !! "document_name"))
            (hit.2 ≫= (λ m : gmap string MetaVal, m !! "document_type"))).

Lemma context_parts_run i
    (results : list (string * PyFloat.float * option (gmap string MetaVal))) st :
  (Forall (λ hit, is_Some hit.2) results ∧
   ∃ parts, context_parts env i results st = (Ok parts, st)) ∨
  (Exists (λ hit, hit.2 = None) results ∧
   context_parts env i results st = (Raise AttributeError, st)).
Proof.
  revert i. induction results as [|[[chunk score] [m|]] rest IH]; intros i.
  - left. split; [constructor | by eexists].
  - simpl. unfold meta_get. unfold_monad. simpl.
    destruct (IH (i + 1)) as [[Hall [parts ->]] | [Hex ->]].
    + left. split; [by constructor | by eexists].
    + right. split; [by apply Exists_cons_tl | done].
  - right. split; [by apply Exists_cons_hd | done].
Qed.

Lemma make_sources_run
    (results : list (string * PyFloat.float * option (gmap string MetaVal))) st :
  Forall (λ hit, is_Some hit.2) results →
  make_sources results st = (Ok ((λ hit, source_of hit) <$> results), st).
Proof.
  induction 1 as [|[[chunk score] meta] rest [m ?] _ IH]; [done|].
  simpl in *. subst meta. unfold meta_get. unfold_monad. simpl.
  by rewrite IH.
Qed.

(** [generate_response] after a [search] that returned [results]. *)
Lemma generate_response_after_search q k f st results st1 :
  search env q k f st = (Ok results, st1) →
  (Exists (λ hit, hit.2 = None) results ∧
   generate_response env q k f st = (Raise AttributeError, st1)) ∨
  (Forall (λ hit, is_Some hit.2) results ∧
   ∃ parts,
     context_parts env 1 results st1 = (Ok parts, st1) ∧
     let context := join (nl +:+ nl) parts in
     let user := user_message context q in
     let st2 := log_requests [ChatRequest system_message user] st1 in
     generate_response env q k f st =
       match chat_create env system_message user with
       | inl msg => (Raise (ProviderError msg), st2)
       | inr [] => (Raise IndexError, st2)
       | inr (a :: _) =>
           (Ok (mkResponse a ((λ hit, source_of hit) <$> results) context),
            st2)
       end).
Proof.
  intros Hsearch. unfold generate_response.
  rewrite (bind_ok _ _ _ _ _ Hsearch).
  destruct (context_parts_run 1 results st1)
    as [[Hall [parts Hparts]] | [Hex Hparts]].
  - right. split; [done|]. exists parts. split; [done|]. cbv zeta.
    rewrite (bind_ok _ _ _ _ _ Hparts). unfold_monad. simpl.
    change (log_request ?r st1) with (log_requests [r] st1).
    destruct (chat_create env _ _) as [msg|[|a rest]]; simpl; [done..|].
    by rewrite make_sources_run.
  - left. split; [done|]. by rewrite (bind_raise _ _ _ _ _ Hparts).
Qed.

Lemma generate_response_run q k f st :
  ∃ r sent,
    generate_response env q k f st = (r, log_requests sent st) ∧
    r ≠ Diverge ∧
    (sent = [] ∨ sent = [EmbeddingRequest [q]] ∨
     ∃ ctx, sent = [EmbeddingRequest [q];
                    ChatRequest system_message (user_message ctx q)]) ∧
    (∀ resp, r = Ok resp →
       sent = [EmbeddingRequest [q];
               ChatRequest system_message (user_message (context resp) q)]).
Proof.
  destruct (search_run q k f st) as (r & sent & Hsearch & Hr & Hsent & Hok).
  destruct r as [results|e|]; [|clear Hok|done].
  - rewrite (Hok eq_refl) in *. clear Hok Hsent.
    destruct (generate_response_after_search _ _ _ _ _ _ Hsearch)
      as [[_ ->] | [_ (parts & _ & ->)]].
    + eexists _, _. split; [done|]. repeat split; [done|by eauto|done].
    + cbv zeta. rewrite log_requests_app. simpl.
      destruct (chat_create env _ _) as [msg|[|a rest]];
        eexists _, _; (split; [done|]); repeat split; eauto; try done.
      by intros resp [= <-].
  - rewrite (generate_response_raise env _ _ _ _ _ _ Hsearch).
    eexists _, _. split; [done|]. repeat split; [done| |done].
    destruct Hsent as [-> | ->]; eauto.
Qed.

End QueryRuns.

(** X18: [search] changes nothing of the instance and of the store; it
    sends at most one request, the embedding of the query alone, and
    exactly that one whenever it returns. *)
Theorem search_only_sends_query_embedding (env : Env) (q : string) (k : Z)
    (f : option string) (st : State) :
  ∃ sent,
    snd (search env q k f st) = log_requests sent st ∧
    fst (search env q k f st) ≠ Diverge ∧
    (sent = [] ∨ sent = [EmbeddingRequest [q]]) ∧
    (succeeded (fst (search env q k f st)) = true →
     sent = [EmbeddingRequest [q]]).
Proof.
  destruct (search_run env q k f st) as (r & sent & -> & Hrest).
  by exists sent.
Qed.

(** X19: [generate_response] changes nothing of the instance and of the
    store; the requests it sends are, in this order, the embedding of the
    query and then at most one chat request whose user message is built
    from the query, and when it returns both were sent and the chat
    request carried the context it returns. *)
Theorem generate_response_sends_embedding_then_chat (env : Env) (q : string)
    (k : Z) (f : option string) (st : State) :
  ∃ sent,
    snd (generate_response env q k f st) = log_requests sent st ∧
    fst (generate_response env q k f st) ≠ Diverge ∧
    (sent = [] ∨ sent = [EmbeddingRequest [q]] ∨
     ∃ ctx, sent = [EmbeddingRequest [q];
                    ChatRequest system_message (user_message ctx q)]) ∧
    (∀ resp, fst (generate_response env q k f st) = Ok resp →
       sent = [EmbeddingRequest [q];
               ChatRequest system_message (user_message (context resp) q)]).
Proof.
  destruct (generate_response_run env q k f st) as (r & sent & -> & Hrest).
  by exists sent.
Qed.

(** X20: when [generate_response] returns, its sources are the results of
    [search] one for one and in the same order, each with the chunk and
    the score of its result and with the [document_name] and
    [document_type] of its metadata, or None where the metadata lacks the
    key (the label "Unknown" is used in the context only). *)
Theorem sources_follow_search_results (env : Env) (q : string) (k : Z)
    (f : option string) (st st1 st' : State)
    (results : list (string * PyFloat.float * option (gmap string MetaVal)))
    (resp : Response) :
  search env q k f st = (Ok results, st1) →
  generate_response env q k f st = (Ok resp, st') →
  sources resp =
    (λ hit, mkSource hit.1.1 hit.1.2
              (hit.2 ≫= (λ m : gmap string MetaVal, m !! "document_name"))
              (hit.2 ≫= (λ m : gmap string MetaVal, m !! "document_type")))
      <$> results ∧
  Forall (λ hit, is_Some hit.2) results.
Proof.
  intros Hsearch Hrun.
  destruct (generate_response_after_search env _ _ _ _ _ _ Hsearch)
    as [[_ Hgen] | [Hall (parts & _ & Hgen)]]; [congruence|].
  cbv zeta in Hgen. rewrite Hgen in Hrun.
  destruct (chat_create env _ _) as [msg|[|a rest]]; [done..|].
  by simplify_eq.
Qed.

Lemma sources_follow_search_results_witness :
  let r := Reference.answer Reference.entries [4; 1]%Q 2 None in
  let results := zip3 (res_documents r) (similarities (res_distances r))
                      (res_metadatas r) in
  sources (match fst (generate_response Reference.env "abcd" 2 None
                        Reference.loaded) with
           | Ok resp => resp
           | _ => mkResponse "" [] ""
           end) =
    (λ hit, mkSource hit.1.1 hit.1.2
              (hit.2 ≫= (λ m : gmap string MetaVal, m !! "document_name"))
              (hit.2 ≫= (λ m : gmap string MetaVal, m !! "document_type")))
      <$> results ∧
  Forall (λ hit, is_Some hit.2) results.
Proof.
  intros r results.
  pose proof (reference_search "abcd" 2 None) as Hsearch.
  change (search Reference.env "abcd" 2 None Reference.loaded =
            (Ok results,
             log_request (EmbeddingRequest ["abcd"]) Reference.loaded))
    in Hsearch.
  assert (Hok : succeeded (fst (generate_response Reference.env "abcd" 2 None
                                  Reference.loaded)) = true)
    by (vm_compute; reflexivity).
  destruct (generate_response_after_search Reference.env _ _ _ _ _ _ Hsearch)
    as [[_ Hgen] | [_ (parts & _ & Hgen)]].
  { rewrite Hgen in Hok. discriminate Hok. }
  cbv zeta in Hgen. change (chat_create Reference.env) with
    (λ _ _ : string, @inr string _ ["No relevant information was found."])
    in Hgen.
  cbv beta iota in Hgen.
  apply (sources_follow_search_results Reference.env "abcd" 2 None
           Reference.loaded
           (log_request (EmbeddingRequest ["abcd"]) Reference.loaded)
           (snd (generate_response Reference.env "abcd" 2 None
                   Reference.loaded))
           results _ Hsearch).
  rewrite Hgen. reflexivity.
Defined.

(** X21: when one of the results of [search] has no metadata,
    [generate_response] raises [AttributeError] while it builds the
    context: no chat request is sent. *)
Theorem missing_metadata_raises_before_chat (env : Env) (q : string) (k : Z)
    (f : option string) (st st1 : State)
    (results : list (string * PyFloat.float * option (gmap string MetaVal))) :
  search env q k f st = (Ok results, st1) →
  Exists (λ hit, hit.2 = None) results →
  generate_response env q k f st = (Raise AttributeError, st1).
Proof.
  intros Hsearch Hex.
  destruct (generate_response_after_search env _ _ _ _ _ _ Hsearch)
    as [[_ Hgen] | [Hall _]]; [done|].
  exfalso. apply Exists_exists in Hex as (hit & Hin & Hnone).
  eapply Forall_forall in Hall as [m Hm]; [|done]. congruence.
Qed.

Lemma missing_metadata_raises_before_chat_witness :
  generate_response Reference.env "abcd" 1 None Reference.loaded_bare =
    (Raise AttributeError,
     log_request (EmbeddingRequest ["abcd"]) Reference.loaded_bare).
Proof.
  apply (missing_metadata_raises_before_chat Reference.env "abcd" 1 None
           Reference.loaded_bare _ [("delta", PyFloat.Finite 1, None)]).
  - rewrite (search_ok Reference.env "abcd" 1 None Reference.loaded_bare
               collection_name (Reference.entries ++ [Reference.bare_entry])
               [4; 1]%Q []
               (Reference.answer
                  (Reference.entries ++ [Reference.bare_entry])
                  [4; 1]%Q 1 None));
      [|done | apply lookup_singleton_eq | done..].
    f_equal.
  - by apply Exists_cons_hd.
Defined.

(** ** Documents without text *)

Lemma concat_pages_textless pages :
  Forall (λ p, p = None ∨ p = Some ""%string) pages → concat_pages pages = "".
Proof. induction 1 as [|p pages [-> | ->] _ IH]; simpl; done. Qed.

(** X22: a PDF none of whose pages has text (no text layer) is added
    without error: [add_document] returns no chunk and registers the
    document with a chunk count of 0. *)
Theorem textless_pdf_registers_zero_chunks (env : Env)
    (path name type : string) (st : State) (pages : list (option string)) :
  pdf_pages env path = inr pages →
  Forall (λ p, p = None ∨ p = Some ""%string) pages →
  add_document env path name type st =
    (Ok ([], path_stem env path),
     set_documents
       (<[MStr (path_stem env path) :=
            mkDocInfo (MStr name) (MStr type) (MStr path) 0]> (documents st))
       st).
Proof.
  intros Hpages Hblank.
  unfold add_document, extract_text_from_pdf. unfold_monad.
  rewrite Hpages. simpl. by rewrite concat_pages_textless.
Qed.

Lemma textless_pdf_registers_zero_chunks_witness :
  add_document Reference.env_scanned "scan.pdf" "Scan" "Safety"
    Reference.fresh =
    (Ok ([], path_stem Reference.env_scanned "scan.pdf"),
     set_documents
       (<[MStr (path_stem Reference.env_scanned "scan.pdf") :=
            mkDocInfo (MStr "Scan") (MStr "Safety") (MStr "scan.pdf") 0]>
          (documents Reference.fresh))
       Reference.fresh).
Proof.
  apply (textless_pdf_registers_zero_chunks Reference.env_scanned
           "scan.pdf" "Scan" "Safety" Reference.fresh [None; Some ""; None]).
  - reflexivity.
  - repeat constructor; by (left + right).
Defined.

(** ** The chat handler *)

Section ChatFacts.
Import App.
Variable env : Env.

Lemma set_last_content_snoc c history m :
  set_last_content c (history ++ [m]) = history ++ [mkMessage (role m) c].
Proof.
  unfold set_last_content. rewrite reverse_snoc. by rewrite reverse_involutive.
Qed.

Lemma chat_run now message history document_filter app :
  blank message = false →
  let filter := if String.eqb document_filter "All Documents" then None
                else Some document_filter in
  let run := generate_response env message 5 filter (rag app) in
  let shown text :=
    [history ++ [mkMessage "user" message; mkMessage "assistant" placeholder];
     history ++ [mkMessage "user" message; mkMessage "assistant" text]] in
  chat env now message history document_filter app =
    match fst run with
    | Ok response =>
        (shown (answer response), Ok tt,
         mkAppState (snd run)
           (conversation_history app ++
              [mkExchange now message (answer response) (sources response)
                          document_filter]))
    | Raise e =>
        (shown (error_msg e), Ok tt,
         mkAppState (snd run) (conversation_history app))
    | Diverge =>
        ([history ++ [mkMessage "user" message;
                      mkMessage "assistant" placeholder]],
         Diverge, mkAppState (snd run) (conversation_history app))
    end.
Proof.
  intros Hblank. unfold chat. rewrite Hblank. cbv zeta.
  destruct (generate_response env message 5 _ (rag app))
    as [[response|e|] st']; simpl;
    rewrite ?set_last_content_snoc; simpl; by rewrite <- !app_assoc.
Qed.

End ChatFacts.

(** X23: a message that is empty or made of whitespace only is ignored
    by [chat]: nothing is yielded, no request is sent, and the interface
    is as before. *)
Theorem chat_ignores_blank_message (env : Env) (now message : string)
    (history : list App.Message) (document_filter : string)
    (app : App.AppState) :
  Forall (λ c, isspace c = true) (list_ascii_of_string message) →
  App.chat env now message history document_filter app = ([], Ok tt, app).
Proof.
  intros Hspace. unfold App.chat, App.blank.
  by rewrite strip_spaces.
Qed.

Lemma chat_ignores_blank_message_witness :
  App.chat Reference.env "2024-01-01T00:00:00" "   " [] "All Documents"
    (App.mkAppState Reference.loaded []) =
    ([], Ok tt, App.mkAppState Reference.loaded []).
Proof.
  apply (chat_ignores_blank_message Reference.env "2024-01-01T00:00:00"
           "   " [] "All Documents" (App.mkAppState Reference.loaded [])).
  repeat constructor.
Defined.

(** X24: for any other message [chat] never raises and yields exactly
    twice: first the history extended by the user message and the
    placeholder, then the same history with the placeholder replaced, by
    the answer when [generate_response] returned and by the error text
    when it raised.  Only in the first case is the exchange appended to
    the conversation log.  The filter "All Documents" reaches
    [generate_response] as None. *)
Theorem chat_yields_placeholder_then_outcome (env : Env)
    (now message : string) (history : list App.Message)
    (document_filter : string) (app : App.AppState) :
  App.blank message = false →
  let filter := if String.eqb document_filter "All Documents" then None
                else Some document_filter in
  let run := generate_response env message 5 filter (App.rag app) in
  ∃ text log,
    App.chat env now message history document_filter app =
      ([history ++ [App.mkMessage "user" message;
                    App.mkMessage "assistant" App.placeholder];
        history ++ [App.mkMessage "user" message;
                    App.mkMessage "assistant" text]],
       Ok tt, App.mkAppState (snd run) log) ∧
    ((∃ response, fst run = Ok response ∧ text = answer response ∧
        log = App.conversation_history app ++
              [App.mkExchange now message (answer response)
                              (sources response) document_filter]) ∨
     (∃ e, fst run = Raise e ∧ text = App.error_msg e ∧
        log = App.conversation_history app)).
Proof.
  intros Hblank filter run.
  rewrite (chat_run env _ _ _ _ _ Hblank). fold filter. fold run.
  destruct (generate_response_run env message 5 filter (App.rag app))
    as (r & sent & Hrun & Hr & _).
  fold run in Hrun. rewrite Hrun. simpl.
  destruct r as [response|e|]; [| |done].
  - eexists _, _. split; [done|]. left. by exists response.
  - eexists _, _. split; [done|]. right. by exists e.
Qed.

Lemma chat_yields_placeholder_then_outcome_witness :
  let run := generate_response Reference.env "abcd" 5
               (Some "Nonexistent Doc") Reference.loaded in
  ∃ text log,
    App.chat Reference.env "2024-01-01T00:00:00" "abcd" [] "Nonexistent Doc"
      (App.mkAppState Reference.loaded []) =
      ([[] ++ [App.mkMessage "user" "abcd";
               App.mkMessage "assistant" App.placeholder];
        [] ++ [App.mkMessage "user" "abcd";
               App.mkMessage "assistant" text]],
       Ok tt, App.mkAppState (snd run) log) ∧
    ((∃ response, fst run = Ok response ∧ text = answer response ∧
        log = [] ++
              [App.mkExchange "2024-01-01T00:00:00" "abcd" (answer response)
                              (sources response) "Nonexistent Doc"]) ∨
     (∃ e, fst run = Raise e ∧ text = App.error_msg e ∧ log = [])).
Proof.
  apply (chat_yields_placeholder_then_outcome Reference.env
           "2024-01-01T00:00:00" "abcd" [] "Nonexistent Doc"
           (App.mkAppState Reference.loaded [])).
  reflexivity.
Defined.

(** X25: on an interface whose collection is not loaded, a message makes
    [chat] show the error "Collection not loaded" in place of the
    placeholder; no request is sent, and the instance and the
    conversation log are as before. *)
Theorem chat_reports_collection_not_loaded (env : Env)
    (now message : string) (history : list App.Message)
    (document_filter : string) (app : App.AppState) :
  App.blank message = false →
  collection (App.rag app) = None →
  App.chat env now message history document_filter app =
    ([history ++ [App.mkMessage "user" message;
                  App.mkMessage "assistant" App.placeholder];
      history ++ [App.mkMessage "user" message;
                  App.mkMessage "assistant"
                    ("Error processing query: Collection not loaded"
                     +:+ nl +:+ nl +:+ "Please try rephrasing your question.")]],
     Ok tt, app).
Proof.
  intros Hblank Hnone. rewrite (chat_run env _ _ _ _ _ Hblank). cbv zeta.
  rewrite (generate_response_raise env _ _ _ _ _ _
             (search_not_loaded env _ _ _ _ Hnone)).
  simpl. by destruct app.
Qed.

Lemma chat_reports_collection_not_loaded_witness :
  App.chat Reference.env "2024-01-01T00:00:00" "What is Directive 017?" []
    "All Documents" (App.mkAppState Reference.fresh []) =
    ([[] ++ [App.mkMessage "user" "What is Directive 017?";
             App.mkMessage "assistant" App.placeholder];
      [] ++ [App.mkMessage "user" "What is Directive 017?";
             App.mkMessage "assistant"
               ("Error processing query: Collection not loaded"
                +:+ nl +:+ nl +:+ "Please try rephrasing your question.")]],
     Ok tt, App.mkAppState Reference.fresh []).
Proof.
  apply (chat_reports_collection_not_loaded Reference.env
           "2024-01-01T00:00:00" "What is Directive 017?" [] "All Documents"
           (App.mkAppState Reference.fresh [])); reflexivity.
Defined.

(** ** Reloading what was built *)

Section Reload.
Import Registry RegistrySpec.

Lemma chunk_metadata_lookup id doc i :
  chunk_metadata id doc i !! "document_id" = Some (MStr id) ∧
  chunk_metadata id doc i !! "document_name" = Some (MStr (spec_name doc)) ∧
  chunk_metadata id doc i !! "document_type" = Some (MStr (spec_type doc)) ∧
  chunk_metadata id doc i !! "source_file" = Some (MStr (spec_path doc)).
Proof.
  unfold chunk_metadata.
  repeat split;
    repeat first [ apply lookup_insert_eq
                 | rewrite lookup_insert_ne by done ].
Qed.

Lemma first_with_id_elem id sample m :
  first_with_id id sample = Some m →
  Some m ∈ sample ∧ m !! "document_id" = Some id ∧
  1 ≤ count_with_id id sample.
Proof.
  unfold count_with_id.
  induction sample as [|meta sample IH]; simpl; [done|].
  rewrite filter_cons. case_decide as Hid.
  - intros ->. simpl in Hid. repeat split; [apply list_elem_of_here|done|].
    simpl. lia.
  - intros (Hin & Hm & Hn)%IH.
    repeat split; [by apply list_elem_of_further | done..].
Qed.

End Reload.

(** X26: after a run of [build_index] that returned, [load_index] on a
    new instance over the same store returns and sets the handle, and
    every record of the rebuilt registry belongs to one of the documents
    given: it is keyed by the stem of its path, carries its name, type
    and path, and counts at least one chunk. *)
Theorem reload_after_build (env : Env) (docs : list DocSpec)
    (st st' st0 : State) :
  build_index env docs st = (Ok tt, st') →
  chroma st0 = chroma st' → documents st0 = ∅ →
  ∃ st'',
    load_index st0 = (Ok tt, st'') ∧
    collection st'' = Some collection_name ∧
    ∀ id info, documents st'' !! id = Some info →
      ∃ doc, doc ∈ docs ∧
        id = MStr (path_stem env (spec_path doc)) ∧
        doc_name info = MStr (spec_name doc) ∧
        doc_type info = MStr (spec_type doc) ∧
        doc_path info = MStr (spec_path doc) ∧
        1 ≤ doc_chunks info.
Proof.
  intros (entries & _ & Hch & _ & Hent & _)%build_index_entries Hst0 Hdocs0.
  assert (Hs : chroma st0 !! collection_name = Some entries)
    by (rewrite Hst0, Hch; apply lookup_insert_eq).
  assert (Hmeta : ∀ meta, meta ∈ RegistrySpec.sample_of entries →
            ∃ doc j, doc ∈ docs ∧
              meta = Some (chunk_metadata (path_stem env (spec_path doc))
                                          doc j)).
  { intros meta (e & -> & He)%list_elem_of_fmap.
    apply list_elem_of_lookup in He as [i He].
    apply lookup_take_Some in He as [He _].
    by destruct (Hent _ _ He) as (_ & doc & j & Hdoc & ->); eauto. }
  assert (∃ st'', load_index st0 = (Ok tt, st'')) as [st'' Hload].
  { rewrite (load_index_present _ _ Hs). cbv zeta.
    destruct (RegistrySpec.sample_of entries) as [|meta metas] eqn:Hsample;
      [by eauto|].
    destruct ((for_each (meta :: metas) register_doc;;
               for_each (meta :: metas) count_chunk)
                (set_collection (Some collection_name) st0))
      as [out st1] eqn:Hrun.
    apply loops_frame in Hrun as (_ & [-> | [-> Hin]]); [by eauto|].
    by apply Hmeta in Hin as (doc & j & _ & ?). }
  exists st''. split; [done|].
  apply load_index_ok_inv in Hload as (entries' & Hs' & ->).
  assert (entries' = entries) as -> by congruence.
  split; [done|]. intros id info. simpl.
  rewrite count_all_lookup, register_all_lookup, Hdocs0, lookup_empty.
  destruct (meta_truthy id); [|done].
  destruct (RegistrySpec.first_with_id id (RegistrySpec.sample_of entries))
    as [m|] eqn:Hfirst; [|done].
  simpl. intros [= <-].
  apply first_with_id_elem in Hfirst as (Hin & Hid & Hn).
  apply Hmeta in Hin as (doc & j & Hdoc & [= ->]).
  destruct (chunk_metadata_lookup (path_stem env (spec_path doc)) doc j)
    as (Hi & Hname & Htype & Hpath).
  exists doc. unfold Registry.new_record. simpl.
  rewrite Hname, Htype, Hpath. simpl.
  repeat split; [done|congruence|lia].
Qed.

Lemma reload_after_build_witness :
  let docs := [mkDocSpec "directive_001.pdf" "Directive 001" "Compliance"] in
  let st' := snd (build_index Reference.env docs Reference.loaded) in
  ∃ st'',
    load_index (mkState None ∅ (chroma st') []) = (Ok tt, st'') ∧
    collection st'' = Some collection_name ∧
    ∀ id info, documents st'' !! id = Some info →
      ∃ doc, doc ∈ docs ∧
        id = MStr (path_stem Reference.env (spec_path doc)) ∧
        doc_name info = MStr (spec_name doc) ∧
        doc_type info = MStr (spec_type doc) ∧
        doc_path info = MStr (spec_path doc) ∧
        1 ≤ doc_chunks info.
Proof.
  intros docs st'.
  apply (reload_after_build Reference.env docs Reference.loaded st'
           (mkState None ∅ (chroma st') [])); [|done..].
  subst st'.
  assert (Hok : fst (build_index Reference.env docs Reference.loaded) = Ok tt)
    by (vm_compute; reflexivity).
  destruct (build_index Reference.env docs Reference.loaded) as [out st'].
  simpl in *. by subst out.
Defined.
